(** * Snow.py: a shallow embedding of the snowfall animation

    The program is one Python module: a block of module-level globals, an
    initialisation loop that fills three parallel lists, the procedure
    [letItSnow] that draws and moves a range of flakes, and the main loop
    that reads the clock, updates two counters and calls [letItSnow] once
    per half of the flakes.

    Python integers are unbounded, so they are [Z].  The module globals are
    one record, [World]; every statement is a function on it.  Indexing a
    list out of range raises [IndexError] and [random.randrange] on an empty
    range raises [ValueError]: both are [None] in the option monad. *)

From Stdlib Require Import ZArith Lia.
From stdpp Require Import base option list.

Local Open Scope Z_scope.

(** ** The random source

    [random.randint] and [random.randrange] draw from the interpreter's
    hidden generator.  The generator is kept as the sequence of its raw
    outputs together with the number of outputs consumed so far; a draw
    reduces the next raw output into the requested range. *)

Module Random.

Record Gen : Type := mkGen { raw : nat → Z; used : nat }.

Definition next (g : Gen) : Z * Gen :=
  (raw g (used g), mkGen (raw g) (S (used g))).

(** [random.randrange(a, b)]: an integer of the half-open range [a, b);
    [ValueError] when the range is empty. *)
Definition randrange (a b : Z) (g : Gen) : option (Z * Gen) :=
  if b <=? a then None
  else let '(r, g') := next g in Some (a + r `mod` (b - a), g').

(** [random.randint(a, b)] is [randrange(a, b + 1)]: both ends included. *)
Definition randint (a b : Z) (g : Gen) : option (Z * Gen) :=
  randrange a (b + 1) g.

(** A generator whose raw outputs are all [v], and one that replays a
    finite script and then yields zeros. *)
Definition const (v : Z) : Gen := mkGen (λ _, v) 0.
Definition script (l : list Z) : Gen := mkGen (λ n, default 0 (l !! n)) 0.

End Random.

Import Random.

(** ** Module globals *)

Definition width : Z := 700.
Definition height : Z := 500.
Definition flakes_amount : nat := 200.

Definition navy : Z * Z * Z := (15, 20, 30).

(** One [pygame.draw.circle] request: colour, centre, radius. *)
Record Circle : Type := mkCircle {
  c_color : Z * Z * Z;
  c_center : Z * Z;
  c_radius : Z
}.

(** The display surface: the fill colour and the circles drawn on it since
    the last fill. *)
Record Screen : Type := mkScreen {
  background : Z * Z * Z;
  circles : list Circle
}.

Inductive Event : Type := QUIT | OtherEvent.

#[global] Instance Event_eq_dec : EqDecision Event.
Proof. solve_decision. Defined.

(** [snow_list] holds the two-element lists [[x, y]], [color_list] the
    three-element lists [[r, g, b]]; [snow_half] is computed once, after the
    initialisation loop. *)
Record World : Type := mkWorld {
  time_passed : Z;
  time_since : Z;
  num_changed : Z;
  done : bool;
  snow_list : list (Z * Z);
  size_list : list Z;
  color_list : list (Z * Z * Z);
  snow_half : nat;
  rand : Gen;
  screen : Screen
}.

Definition set_time_passed (v : Z) (w : World) : World :=
  mkWorld v (time_since w) (num_changed w) (done w) (snow_list w)
          (size_list w) (color_list w) (snow_half w) (rand w) (screen w).
Definition set_time_since (v : Z) (w : World) : World :=
  mkWorld (time_passed w) v (num_changed w) (done w) (snow_list w)
          (size_list w) (color_list w) (snow_half w) (rand w) (screen w).
Definition set_num_changed (v : Z) (w : World) : World :=
  mkWorld (time_passed w) (time_since w) v (done w) (snow_list w)
          (size_list w) (color_list w) (snow_half w) (rand w) (screen w).
Definition set_done (v : bool) (w : World) : World :=
  mkWorld (time_passed w) (time_since w) (num_changed w) v (snow_list w)
          (size_list w) (color_list w) (snow_half w) (rand w) (screen w).
Definition set_snow_list (v : list (Z * Z)) (w : World) : World :=
  mkWorld (time_passed w) (time_since w) (num_changed w) (done w) v
          (size_list w) (color_list w) (snow_half w) (rand w) (screen w).
Definition set_size_list (v : list Z) (w : World) : World :=
  mkWorld (time_passed w) (time_since w) (num_changed w) (done w) (snow_list w)
          v (color_list w) (snow_half w) (rand w) (screen w).
Definition set_color_list (v : list (Z * Z * Z)) (w : World) : World :=
  mkWorld (time_passed w) (time_since w) (num_changed w) (done w) (snow_list w)
          (size_list w) v (snow_half w) (rand w) (screen w).
Definition set_snow_half (v : nat) (w : World) : World :=
  mkWorld (time_passed w) (time_since w) (num_changed w) (done w) (snow_list w)
          (size_list w) (color_list w) v (rand w) (screen w).
Definition set_rand (v : Gen) (w : World) : World :=
  mkWorld (time_passed w) (time_since w) (num_changed w) (done w) (snow_list w)
          (size_list w) (color_list w) (snow_half w) v (screen w).
Definition set_screen (v : Screen) (w : World) : World :=
  mkWorld (time_passed w) (time_since w) (num_changed w) (done w) (snow_list w)
          (size_list w) (color_list w) (snow_half w) (rand w) v.

(** The globals as the module's top-level assignments leave them, before the
    initialisation loop runs. *)
Definition blank (g : Gen) : World :=
  mkWorld 0 0 0 false [] [] [] 0%nat g (mkScreen (0, 0, 0) []).

(** ** Initialisation *)

(** A library draw inside the world: the generator is advanced in place. *)
Definition draw_randint (a b : Z) (w : World) : option (Z * World) :=
  '(v, g) ← randint a b (rand w); Some (v, set_rand g w).
Definition draw_randrange (a b : Z) (w : World) : option (Z * World) :=
  '(v, g) ← randrange a b (rand w); Some (v, set_rand g w).

(** [createColour(loc)]: the argument is not used. *)
Definition createColour (loc : nat) (w : World) : option World :=
  '(handle, w) ← draw_randint 30 255 w;
  Some (set_color_list (color_list w ++ [(handle, handle, handle)]) w).

(** The body of [for snowCount in range(flakes_amount)]. *)
Definition create_flake (snowCount : nat) (w : World) : option World :=
  '(size, w) ← draw_randint 2 4 w;
  let w := set_size_list (size_list w ++ [size]) w in
  '(x, w) ← draw_randint 0 width w;
  '(y, w) ← draw_randint 0 height w;
  let w := set_snow_list (snow_list w ++ [(x, y)]) w in
  createColour snowCount w.

(** A [for] loop over a list of indices, threading the world and stopping at
    the first exception. *)
Fixpoint for_each (body : nat → World → option World)
    (idxs : list nat) (w : World) : option World :=
  match idxs with
  | [] => Some w
  | i :: rest => w' ← body i w; for_each body rest w'
  end.

(** [range(a, b)] on indices. *)
Definition range (a b : nat) : list nat := seq a (b - a).

(** Everything the module does before the main loop; [int(len(snow_list)/2)]
    is the floor of half the length. *)
Definition init (g : Gen) : option World :=
  w ← for_each create_flake (range 0 flakes_amount) (blank g);
  Some (set_snow_half (length (snow_list w) `div` 2)%nat w).

(** ** letItSnow *)

(** [pygame.draw.circle(screen, color_list[i], snow_list[i], size_list[i])] *)
Definition draw_circle (i : nat) (w : World) : option World :=
  col ← color_list w !! i;
  pos ← snow_list w !! i;
  rad ← size_list w !! i;
  Some (set_screen (mkScreen (background (screen w))
                             (circles (screen w) ++ [mkCircle col pos rad])) w).

(** [snow_list[i][0] = f(snow_list[i][0])] and the same for index 1. *)
Definition update_x (i : nat) (f : Z → Z) (w : World) : option World :=
  p ← snow_list w !! i;
  Some (set_snow_list (<[i := (f p.1, p.2)]> (snow_list w)) w).
Definition update_y (i : nat) (f : Z → Z) (w : World) : option World :=
  p ← snow_list w !! i;
  Some (set_snow_list (<[i := (p.1, f p.2)]> (snow_list w)) w).

(** The test of the wind change, on the two global counters. *)
Definition wind_changes (w : World) : bool :=
  time_since w >? 10000 + 10000 * num_changed w.

(** The value of the local [x_wind] after the [if] that may override it. *)
Definition blow (x_wind : Z) (w : World) : Z :=
  if wind_changes w then 100 else x_wind.

(** "Drifting": the two [+=] statements. *)
Definition drifting (snows : nat) (x_wind y_wind : Z) (w : World) : option World :=
  w ← update_x snows (λ x, x + x_wind) w;
  update_y snows (λ y, y + y_wind) w.

(** The first recycling [if]: the flake fell below the bottom edge. *)
Definition recycle_bottom (snows : nat) (w : World) : option World :=
  p ← snow_list w !! snows;
  if p.2 >? height + 3 then
    '(y, w) ← draw_randrange (-50) (-10) w;
    w ← update_y snows (λ _, y) w;
    '(x, w) ← draw_randrange 0 (width - 50) w;
    update_x snows (λ _, x) w
  else Some w.

(** The second recycling [if]: the flake left through the right edge. *)
Definition recycle_right (snows : nat) (w : World) : option World :=
  p ← snow_list w !! snows;
  if p.1 >? width + 3 then
    '(y, w) ← draw_randrange 0 (height - 50) w;
    w ← update_y snows (λ _, y) w;
    '(x, w) ← draw_randrange (-50) (-10) w;
    update_x snows (λ _, x) w
  else Some w.

(** One iteration of the loop of [letItSnow].  [x_wind] is a local of the
    call that the iteration may overwrite, so it is threaded through. *)
Definition snow_body (snows : nat) (y_wind : Z) (s : Z * World) : option (Z * World) :=
  let '(x_wind, w) := s in
  w ← draw_circle snows w;
  let x_wind := blow x_wind w in
  w ← drifting snows x_wind y_wind w;
  w ← recycle_bottom snows w;
  w ← recycle_right snows w;
  Some (x_wind, w).

Fixpoint snow_loop (idxs : list nat) (y_wind : Z) (s : Z * World) : option (Z * World) :=
  match idxs with
  | [] => Some s
  | snows :: rest => s' ← snow_body snows y_wind s; snow_loop rest y_wind s'
  end.

(** [letItSnow(firstSnow, lastSnow, x_wind, y_wind)]: the local [x_wind] is
    dropped when the call returns. *)
Definition letItSnow (firstSnow lastSnow : nat) (x_wind y_wind : Z) (w : World) : option World :=
  snd <$> snow_loop (range firstSnow lastSnow) y_wind (x_wind, w).

(** ** The main loop *)

(** What one iteration reads from outside: the pending events and the value
    of [pygame.time.get_ticks()]. *)
Record Input : Type := mkInput { events : list Event; ticks : Z }.

Definition poll (evs : list Event) (w : World) : World :=
  if bool_decide (QUIT ∈ evs) then set_done true w else w.

Definition fill (col : Z * Z * Z) (w : World) : World :=
  set_screen (mkScreen col []) w.

(** The "Time" block: read the clock, and move [time_since] one interval
    forward when a whole interval has gone by. *)
Definition timer (now : Z) (w : World) : World :=
  let w := set_time_passed now w in
  if time_passed w - time_since w >=? 10000 then
    let w := set_time_since (time_since w + 10000) w in
    set_num_changed (num_changed w + 1) w
  else w.

(** One iteration of [while done==False]. *)
Definition frame (inp : Input) (w : World) : option World :=
  let w := poll (events inp) w in
  let w := fill navy w in
  let w := timer (ticks inp) w in
  w ← letItSnow 0 (snow_half w) 1 2 w;
  letItSnow (snow_half w) (length (snow_list w)) 4 4 w.

(** The loop over the inputs that the run receives; it stops at the first
    iteration that finds [done] set. *)
Fixpoint main_loop (inps : list Input) (w : World) : option World :=
  match inps with
  | [] => Some w
  | inp :: rest =>
      if done w then Some w
      else w' ← frame inp w; main_loop rest w'
  end.

Definition program (g : Gen) (inps : list Input) : option World :=
  w ← init g; main_loop inps w.

(** The program prints the three counters, presents the surface and waits
    on the frame clock in every iteration; none of these touches the
    globals, so a frame is the function above. *)

(** * Properties *)

(** ** The random source *)

Section random_facts.
Context (a b : Z) (g : Gen).

Lemma randrange_Some :
  a < b →
  randrange a b g
  = Some (a + raw g (used g) `mod` (b - a), mkGen (raw g) (S (used g))).
Proof.
  intros Hab. unfold randrange, next.
  destruct (Z.leb_spec b a); [lia | done].
Qed.


Lemma randint_Some :
  a ≤ b →
  randint a b g
  = Some (a + raw g (used g) `mod` (b + 1 - a), mkGen (raw g) (S (used g))).
Proof.
  intros Hab. unfold randint, randrange, next.
  destruct (Z.leb_spec (b + 1) a); [lia | done].
Qed.

Lemma randint_bounds v g' :
  randint a b g = Some (v, g') → a ≤ v ≤ b.
Proof.
  unfold randint, randrange, next. destruct (Z.leb_spec (b + 1) a); [done |].
  intros [= <- _].
  pose proof (Z.mod_pos_bound (raw g (used g)) (b + 1 - a)). lia.
Qed.
End random_facts.

(** Every value of the requested range is produced by some generator, both
    ends of [randint] included. *)
Lemma randint_attains (a b v : Z) :
  a ≤ v ≤ b → fst <$> randint a b (const (v - a)) = Some v.
Proof.
  intros Hv. rewrite randint_Some by lia. simpl.
  rewrite Z.mod_small by lia. f_equal. lia.
Qed.

Lemma randrange_attains (a b v : Z) :
  a ≤ v < b → fst <$> randrange a b (const (v - a)) = Some v.
Proof.
  intros Hv. rewrite randrange_Some by lia. simpl.
  rewrite Z.mod_small by lia. f_equal. lia.
Qed.

(** The generator after [n] more draws. *)
Definition skip (n : nat) (g : Gen) : Gen := mkGen (raw g) (n + used g).

Lemma skip_0 g : skip 0 g = g.
Proof. by destruct g. Qed.

Lemma skip_skip a b g : skip a (skip b g) = skip (a + b) g.
Proof. unfold skip. simpl. f_equal. lia. Qed.

Lemma randrange_skip a b g :
  a < b → snd <$> randrange a b g = Some (skip 1 g).
Proof. intros Hab. by rewrite randrange_Some. Qed.

(** ** What a statement leaves alone *)

(** [keeps w w']: going from [w] to [w'] changed neither the clock counters,
    nor the flag, nor the sizes and colours, nor the number of flakes. *)
Record keeps (w w' : World) : Prop := mkKeeps {
  keeps_time_passed : time_passed w' = time_passed w;
  keeps_time_since : time_since w' = time_since w;
  keeps_num_changed : num_changed w' = num_changed w;
  keeps_done : done w' = done w;
  keeps_size_list : size_list w' = size_list w;
  keeps_color_list : color_list w' = color_list w;
  keeps_snow_half : snow_half w' = snow_half w;
  keeps_flakes : length (snow_list w') = length (snow_list w)
}.

Lemma keeps_refl w : keeps w w.
Proof. by constructor. Qed.

Lemma keeps_trans w1 w2 w3 : keeps w1 w2 → keeps w2 w3 → keeps w1 w3.
Proof.
  intros [] []. constructor; etrans; eauto.
Qed.

Lemma keeps_wind_changes w w' : keeps w w' → wind_changes w' = wind_changes w.
Proof. intros []. unfold wind_changes. congruence. Qed.

Lemma keeps_blow w w' x : keeps w w' → blow x w' = blow x w.
Proof. intros H. unfold blow. by rewrite (keeps_wind_changes _ _ H). Qed.

Lemma blow_idem x w : blow (blow x w) w = blow x w.
Proof. unfold blow. by destruct (wind_changes w). Qed.

(** The world after one flake was given the position [q], the generator
    became [g] and the surface became [s]. *)
Definition moved (i : nat) (q : Z * Z) (g : Gen) (s : Screen) (w : World) : World :=
  set_screen s (set_rand g (set_snow_list (<[i := q]> (snow_list w)) w)).

Lemma moved_keeps i q g s w : keeps w (moved i q g s w).
Proof. constructor; try done. simpl. by rewrite length_insert. Qed.

Lemma moved_id i p w :
  snow_list w !! i = Some p → moved i p (rand w) (screen w) w = w.
Proof.
  intros H. destruct w. unfold moved. simpl in *.
  unfold set_screen, set_rand, set_snow_list. simpl.
  by rewrite list_insert_id.
Qed.

Lemma moved_moved i q g s q' g' s' w :
  moved i q' g' s' (moved i q g s w) = moved i q' g' s' w.
Proof.
  unfold moved, set_screen, set_rand, set_snow_list. simpl.
  by rewrite list_insert_insert_eq.
Qed.

Lemma moved_lookup i q g s w :
  (i < length (snow_list w))%nat → snow_list (moved i q g s w) !! i = Some q.
Proof. intros H. simpl. by apply list_lookup_insert_eq. Qed.

Lemma moved_lookup_ne i j q g s w :
  i ≠ j → snow_list (moved i q g s w) !! j = snow_list w !! j.
Proof. intros H. simpl. by apply list_lookup_insert_ne. Qed.

(** ** The statements of the loop body, one flake at a time *)

(** The two regions a recycled flake is put in: above the top edge, and left
    of the left edge. *)
Definition above_top (q : Z * Z) : Prop :=
  -50 ≤ q.2 < -10 ∧ 0 ≤ q.1 < width - 50.
Definition left_of_left (q : Z * Z) : Prop :=
  0 ≤ q.2 < height - 50 ∧ -50 ≤ q.1 < -10.

Section one_flake.
Context (i : nat) (w : World) (p : Z * Z).
Hypothesis Hp : snow_list w !! i = Some p.

Lemma update_x_Some f :
  update_x i f w = Some (moved i (f p.1, p.2) (rand w) (screen w) w).
Proof. unfold update_x. by rewrite Hp. Qed.

Lemma update_y_Some f :
  update_y i f w = Some (moved i (p.1, f p.2) (rand w) (screen w) w).
Proof. unfold update_y. by rewrite Hp. Qed.

Lemma drifting_Some x_wind y_wind :
  drifting i x_wind y_wind w
  = Some (moved i (p.1 + x_wind, p.2 + y_wind) (rand w) (screen w) w).
Proof.
  unfold drifting. rewrite update_x_Some. simpl.
  unfold update_y. simpl.
  rewrite list_lookup_insert_eq by by eapply lookup_lt_Some.
  simpl. unfold moved, set_screen, set_rand, set_snow_list. simpl.
  by rewrite list_insert_insert_eq.
Qed.

Lemma draw_circle_Some col rad :
  color_list w !! i = Some col → size_list w !! i = Some rad →
  draw_circle i w
  = Some (set_screen (mkScreen (background (screen w))
                        (circles (screen w) ++ [mkCircle col p rad])) w).
Proof. intros Hc Hr. unfold draw_circle. by rewrite Hc, Hp, Hr. Qed.

(** The first [if]: a flake strictly below [height + 3] is put above the
    top edge by two draws; any other flake is left where it is and the
    generator is not used. *)
Lemma recycle_bottom_Some :
  ∃ q g, recycle_bottom i w = Some (moved i q g (screen w) w) ∧
         if p.2 >? height + 3 then above_top q else q = p ∧ g = rand w.
Proof.
  unfold recycle_bottom. rewrite Hp. simpl.
  destruct (p.2 >? height + 3).
  - unfold update_y. simpl. rewrite Hp. simpl.
    unfold update_x. simpl.
    rewrite list_lookup_insert_eq by by eapply lookup_lt_Some.
    simpl. rewrite list_insert_insert_eq.
    exists (0 + raw (rand w) (S (used (rand w))) `mod` (width - 50 - 0),
            -50 + raw (rand w) (used (rand w)) `mod` (-10 - -50)),
           (mkGen (raw (rand w)) (S (S (used (rand w))))).
    split; [reflexivity |].
    unfold above_top, width. simpl.
    change (-10 - -50) with 40. change (700 - 50 - 0) with 650.
    pose proof (Z.mod_pos_bound (raw (rand w) (used (rand w))) 40).
    pose proof (Z.mod_pos_bound (raw (rand w) (S (used (rand w)))) 650).
    lia.
  - exists p, (rand w). by rewrite moved_id.
Qed.

(** The second [if], the same way on the other axis. *)
Lemma recycle_right_Some :
  ∃ q g, recycle_right i w = Some (moved i q g (screen w) w) ∧
         if p.1 >? width + 3 then left_of_left q else q = p ∧ g = rand w.
Proof.
  unfold recycle_right. rewrite Hp. simpl.
  destruct (p.1 >? width + 3).
  - unfold update_y. simpl. rewrite Hp. simpl.
    unfold update_x. simpl.
    rewrite list_lookup_insert_eq by by eapply lookup_lt_Some.
    simpl. rewrite list_insert_insert_eq.
    exists (-50 + raw (rand w) (S (used (rand w))) `mod` (-10 - -50),
            0 + raw (rand w) (used (rand w)) `mod` (height - 50 - 0)),
           (mkGen (raw (rand w)) (S (S (used (rand w))))).
    split; [reflexivity |].
    unfold left_of_left, height. simpl.
    change (-10 - -50) with 40. change (500 - 50 - 0) with 450.
    pose proof (Z.mod_pos_bound (raw (rand w) (used (rand w))) 450).
    pose proof (Z.mod_pos_bound (raw (rand w) (S (used (rand w)))) 40).
    lia.
  - exists p, (rand w). by rewrite moved_id.
Qed.
End one_flake.

(** ** One iteration of the loop *)

(** Where a flake at [p] is after an iteration that drifts it by [(dx, dy)]:
    the drifted position, unless that is off the bottom or off the right. *)
Definition lands (dx dy : Z) (p q : Z * Z) : Prop :=
  let d := (p.1 + dx, p.2 + dy) in
  if d.2 >? height + 3 then above_top q
  else if d.1 >? width + 3 then left_of_left q
  else q = d.

(** The index is valid in the three parallel lists. *)
Definition indexed (i : nat) (w : World) : Prop :=
  (i < length (snow_list w))%nat ∧ (i < length (size_list w))%nat ∧
  (i < length (color_list w))%nat.

Lemma keeps_indexed i w w' : keeps w w' → indexed i w → indexed i w'.
Proof. intros [] (? & ? & ?). unfold indexed. by repeat split; congruence. Qed.

(** The iteration, cut after each of its three position-changing steps.
    [wd] is the world after the drift, [wb] after the first recycling [if],
    [wr] after the second; [d], [m], [q] are the positions of the flake in
    them. *)
Lemma snow_body_trace i y_wind x_wind w p :
  snow_list w !! i = Some p →
  (i < length (size_list w))%nat → (i < length (color_list w))%nat →
  ∃ wd wb wr d m q gb gr s,
    draw_circle i w ≫= drifting i (blow x_wind w) y_wind = Some wd ∧
    recycle_bottom i wd = Some wb ∧
    recycle_right i wb = Some wr ∧
    snow_body i y_wind (x_wind, w) = Some (blow x_wind w, wr) ∧
    wd = moved i d (rand w) s w ∧ wb = moved i m gb s w ∧ wr = moved i q gr s w ∧
    d = (p.1 + blow x_wind w, p.2 + y_wind) ∧
    (if d.2 >? height + 3 then above_top m else m = d ∧ gb = rand w) ∧
    (if m.1 >? width + 3 then left_of_left q else q = m ∧ gr = gb).
Proof.
  intros Hp Hs Hc.
  destruct (lookup_lt_is_Some_2 _ _ Hs) as [rad Hrad].
  destruct (lookup_lt_is_Some_2 _ _ Hc) as [col Hcol].
  pose proof (lookup_lt_Some _ _ _ Hp) as Hi.
  pose proof (draw_circle_Some i w p Hp col rad Hcol Hrad) as Hdraw.
  set (s := mkScreen (background (screen w))
              (circles (screen w) ++ [mkCircle col p rad])) in Hdraw.
  set (d := (p.1 + blow x_wind w, p.2 + y_wind)).
  assert (Hdrift : drifting i (blow x_wind w) y_wind (set_screen s w)
                   = Some (moved i d (rand w) s w))
    by exact (drifting_Some i (set_screen s w) p Hp _ _).
  assert (Hd : snow_list (moved i d (rand w) s w) !! i = Some d)
    by by apply moved_lookup.
  destruct (recycle_bottom_Some i _ d Hd) as (m & gb & Hb & Hm).
  rewrite moved_moved in Hb. change (screen (moved i d (rand w) s w)) with s in Hb.
  assert (Hmm : snow_list (moved i m gb s w) !! i = Some m)
    by by apply moved_lookup.
  destruct (recycle_right_Some i _ m Hmm) as (q & gr & Hr & Hq).
  rewrite moved_moved in Hr. change (screen (moved i m gb s w)) with s in Hr.
  exists (moved i d (rand w) s w), (moved i m gb s w), (moved i q gr s w),
         d, m, q, gb, gr, s.
  split_and!; try done.
  - by rewrite Hdraw.
  - unfold snow_body. rewrite Hdraw. simpl.
    change (blow x_wind (set_screen s w)) with (blow x_wind w).
    rewrite Hdrift. simpl. rewrite Hb. simpl. by rewrite Hr.
Qed.

(** The iteration as a whole: it never raises on a valid index, it leaves
    the surface, the generator and the one position changed, and the flake
    lands where the wind in force takes it. *)
Lemma snow_body_Some i y_wind x_wind w p :
  snow_list w !! i = Some p → indexed i w →
  ∃ q g s, snow_body i y_wind (x_wind, w)
           = Some (blow x_wind w, moved i q g s w) ∧
           lands (blow x_wind w) y_wind p q.
Proof.
  intros Hp (_ & Hs & Hc).
  destruct (snow_body_trace i y_wind x_wind w p Hp Hs Hc)
    as (wd & wb & wr & d & m & q & gb & gr & s & _ & _ & _ & Hbody & _ & _ & -> & -> & Hm & Hq).
  exists q, gr, s. split; [done |].
  unfold lands. simpl in *.
  destruct (Z.gtb_spec (p.2 + y_wind) (height + 3)) as [Hlow | Hlow].
  - destruct Hm as [Hm1 Hm2]. unfold above_top, width in *.
    destruct (Z.gtb_spec (m.1) (700 + 3)); [lia |].
    by destruct Hq as [-> _].
  - destruct Hm as [-> ->]. simpl in Hq.
    destruct (p.1 + blow x_wind w >? width + 3); [done |]. by destruct Hq.
Qed.

(** ** The loop of letItSnow *)

Lemma snow_loop_cons i rest y_wind s :
  snow_loop (i :: rest) y_wind s
  = snow_body i y_wind s ≫= snow_loop rest y_wind.
Proof. done. Qed.

(** The wind every flake of a call is moved by: the override is decided by
    the two global counters, which the loop never writes, so the local
    [x_wind] has the same value in every iteration. *)
Lemma snow_loop_spec idxs y_wind :
  NoDup idxs → ∀ x_wind w,
  (∀ i, i ∈ idxs → indexed i w) →
  ∃ w', snow_loop idxs y_wind (x_wind, w)
        = Some (match idxs with [] => x_wind | _ => blow x_wind w end, w') ∧
        keeps w w' ∧
        (∀ j, j ∉ idxs → snow_list w' !! j = snow_list w !! j) ∧
        (∀ j p, j ∈ idxs → snow_list w !! j = Some p →
                ∃ q, snow_list w' !! j = Some q ∧
                     lands (blow x_wind w) y_wind p q).
Proof.
  induction 1 as [| i rest Hi Hnd IH]; intros x_wind w Hidx.
  - exists w. split_and!; [done | apply keeps_refl | done |].
    intros j p Hj. by apply elem_of_nil in Hj.
  - assert (Hiw : indexed i w) by (apply Hidx; left).
    destruct (lookup_lt_is_Some_2 _ _ (proj1 Hiw)) as [p Hp].
    destruct (snow_body_Some i y_wind x_wind w p Hp Hiw) as (q & g & s & Hbody & Hq).
    pose proof (moved_keeps i q g s w) as Hk.
    destruct (IH (blow x_wind w) (moved i q g s w)) as (w' & Hloop & Hk' & Hout & Hin).
    { intros j Hj. eapply keeps_indexed; [done |]. apply Hidx. by right. }
    rewrite (keeps_blow _ _ _ Hk), blow_idem in Hloop, Hin.
    exists w'. split_and!.
    + rewrite snow_loop_cons, Hbody. simpl. rewrite Hloop. by destruct rest.
    + by eapply keeps_trans.
    + intros j Hj. apply not_elem_of_cons in Hj as [Hne Hj].
      rewrite (Hout j Hj). by apply moved_lookup_ne.
    + intros j pj Hj Hpj. apply elem_of_cons in Hj as [-> | Hj].
      * exists q. rewrite (Hout i Hi), moved_lookup by apply Hiw.
        split; [done |]. congruence.
      * apply Hin; [done |].
        rewrite moved_lookup_ne; [done |]. intros ->. done.
Qed.

Lemma elem_of_range a b j : j ∈ range a b ↔ (a ≤ j < b)%nat.
Proof. unfold range. rewrite elem_of_seq. lia. Qed.

(** A call of [letItSnow] on a range inside the lists. *)
Lemma letItSnow_spec firstSnow lastSnow x_wind y_wind w :
  (lastSnow ≤ length (snow_list w))%nat →
  (lastSnow ≤ length (size_list w))%nat →
  (lastSnow ≤ length (color_list w))%nat →
  ∃ w', letItSnow firstSnow lastSnow x_wind y_wind w = Some w' ∧
        keeps w w' ∧
        (∀ j, ¬ (firstSnow ≤ j < lastSnow)%nat →
              snow_list w' !! j = snow_list w !! j) ∧
        (∀ j p, (firstSnow ≤ j < lastSnow)%nat → snow_list w !! j = Some p →
                ∃ q, snow_list w' !! j = Some q ∧
                     lands (blow x_wind w) y_wind p q).
Proof.
  intros H1 H2 H3.
  destruct (snow_loop_spec (range firstSnow lastSnow) y_wind
              (NoDup_seq _ _) x_wind w) as (w' & Hloop & Hk & Hout & Hin).
  { intros i Hi%elem_of_range. unfold indexed. lia. }
  exists w'. split_and!; [| done | |].
  - unfold letItSnow. by rewrite Hloop.
  - intros j Hj. apply Hout. by rewrite elem_of_range.
  - intros j p Hj. apply Hin. by rewrite elem_of_range.
Qed.

(** ** The timer *)

(** [time_since] and [num_changed] move together. *)
Definition in_step (w : World) : Prop :=
  time_since w = 10000 * num_changed w.

Lemma in_step_calm w : in_step w → wind_changes w = false.
Proof.
  unfold in_step, wind_changes. intros ->.
  destruct (Z.gtb_spec (10000 * num_changed w) (10000 + 10000 * num_changed w)); [lia | done].
Qed.

Lemma timer_time_passed now w : time_passed (timer now w) = now.
Proof. unfold timer. simpl. by destruct (now - time_since w >=? 10000). Qed.

Lemma timer_cases now w :
  (10000 ≤ now - time_since w ∧
   time_since (timer now w) = time_since w + 10000 ∧
   num_changed (timer now w) = num_changed w + 1) ∨
  (now - time_since w < 10000 ∧
   time_since (timer now w) = time_since w ∧
   num_changed (timer now w) = num_changed w).
Proof.
  unfold timer. simpl.
  destruct (Z.geb_spec (now - time_since w) 10000); [left | right]; simpl; lia.
Qed.

Lemma timer_in_step now w : in_step w → in_step (timer now w).
Proof.
  unfold in_step. intros H.
  destruct (timer_cases now w) as [(_ & -> & ->) | (_ & -> & ->)]; lia.
Qed.

Lemma timer_rest now w :
  done (timer now w) = done w ∧ snow_list (timer now w) = snow_list w ∧
  size_list (timer now w) = size_list w ∧ color_list (timer now w) = color_list w ∧
  snow_half (timer now w) = snow_half w ∧ rand (timer now w) = rand w ∧
  screen (timer now w) = screen w.
Proof. unfold timer. simpl. by destruct (now - time_since w >=? 10000). Qed.

(** ** One frame *)

(** The three lists are parallel and [snow_half] is half their length. *)
Definition ready (w : World) : Prop :=
  length (size_list w) = length (snow_list w) ∧
  length (color_list w) = length (snow_list w) ∧
  snow_half w = (length (snow_list w) `div` 2)%nat.

(** The arguments the main loop passes to [letItSnow] for flake [j]. *)
Definition wind_of (w : World) (j : nat) : Z * Z :=
  if decide (j < snow_half w)%nat then (1, 2) else (4, 4).

(** The world at the moment the main loop calls [letItSnow]. *)
Definition at_snow (inp : Input) (w : World) : World :=
  timer (ticks inp) (fill navy (poll (events inp) w)).

Lemma poll_rest evs w :
  time_passed (poll evs w) = time_passed w ∧ time_since (poll evs w) = time_since w ∧
  num_changed (poll evs w) = num_changed w ∧ snow_list (poll evs w) = snow_list w ∧
  size_list (poll evs w) = size_list w ∧ color_list (poll evs w) = color_list w ∧
  snow_half (poll evs w) = snow_half w ∧ rand (poll evs w) = rand w.
Proof. unfold poll. by destruct (bool_decide (QUIT ∈ evs)). Qed.

Lemma at_snow_rest inp w :
  snow_list (at_snow inp w) = snow_list w ∧ size_list (at_snow inp w) = size_list w ∧
  color_list (at_snow inp w) = color_list w ∧ snow_half (at_snow inp w) = snow_half w ∧
  rand (at_snow inp w) = rand w.
Proof.
  unfold at_snow.
  destruct (timer_rest (ticks inp) (fill navy (poll (events inp) w)))
    as (_ & -> & -> & -> & -> & -> & _).
  destruct (poll_rest (events inp) w) as (_ & _ & _ & ? & ? & ? & ? & ?).
  done.
Qed.

Lemma at_snow_counters inp w :
  time_since (at_snow inp w) = time_since (timer (ticks inp) w) ∧
  num_changed (at_snow inp w) = num_changed (timer (ticks inp) w) ∧
  time_passed (at_snow inp w) = ticks inp.
Proof.
  unfold at_snow. rewrite timer_time_passed.
  unfold timer, fill, poll. simpl.
  destruct (bool_decide (QUIT ∈ events inp)); simpl;
    by destruct (ticks inp - time_since w >=? 10000).
Qed.

Lemma at_snow_ready inp w : ready w → ready (at_snow inp w).
Proof.
  unfold ready. destruct (at_snow_rest inp w) as (-> & -> & -> & -> & _). done.
Qed.

Lemma keeps_ready w w' : keeps w w' → ready w → ready w'.
Proof. intros [] (? & ? & ?). unfold ready. split_and!; congruence. Qed.

(** A frame on parallel lists never raises; it leaves the counters as the
    timer set them, and moves every flake once, by the wind of its half. *)
Lemma frame_spec inp w :
  ready w →
  ∃ w', frame inp w = Some w' ∧ keeps (at_snow inp w) w' ∧
        ∀ j p, snow_list w !! j = Some p →
               ∃ q, snow_list w' !! j = Some q ∧
                    lands (blow (wind_of w j).1 (at_snow inp w)) (wind_of w j).2 p q.
Proof.
  intros Hready.
  pose proof (at_snow_ready inp w Hready) as (Hs & Hc & Hh).
  destruct (at_snow_rest inp w) as (Hsnow & _ & _ & Hhalf & _).
  set (wt := at_snow inp w) in *.
  assert (Hle : (snow_half wt ≤ length (snow_list wt))%nat).
  { rewrite Hh. apply Nat.Div0.div_le_upper_bound. lia. }
  destruct (letItSnow_spec 0 (snow_half wt) 1 2 wt) as (w1 & H1 & Hk1 & Hout1 & Hin1);
    [lia .. |].
  pose proof Hk1 as [_ _ _ _ Hs1 Hc1 Hh1 Hl1].
  destruct (letItSnow_spec (snow_half w1) (length (snow_list w1)) 4 4 w1)
    as (w2 & H2 & Hk2 & Hout2 & Hin2); [rewrite ?Hs1, ?Hc1, ?Hl1; lia .. |].
  exists w2. split_and!.
  - unfold frame. fold (at_snow inp w). fold wt. simpl. rewrite H1. simpl. done.
  - by eapply keeps_trans.
  - intros j p Hp. rewrite <- Hsnow in Hp.
    pose proof (lookup_lt_Some _ _ _ Hp) as Hj.
    unfold wind_of. rewrite <- Hhalf. destruct (decide (j < snow_half wt)%nat) as [Hlt | Hge].
    + destruct (Hin1 j p) as (q & Hq & Hland); [lia | done |].
      exists q. split; [| done]. rewrite Hout2; [done |]. rewrite Hh1. lia.
    + rewrite <- (Hout1 j) in Hp by lia.
      destruct (Hin2 j p) as (q & Hq & Hland); [rewrite Hh1, Hl1; lia | done |].
      exists q. split; [done |]. by rewrite <- (keeps_blow _ _ _ Hk1).
Qed.

(** ** Initialisation *)

(** What one pass of the initialisation loop appends, and the ranges its
    four draws come from: [randint] includes both of its ends. *)
Lemma create_flake_Some n w :
  ∃ r x y h g,
    create_flake n w
    = Some (mkWorld (time_passed w) (time_since w) (num_changed w) (done w)
              (snow_list w ++ [(x, y)]) (size_list w ++ [r])
              (color_list w ++ [(h, h, h)]) (snow_half w) g (screen w)) ∧
    2 ≤ r ≤ 4 ∧ 0 ≤ x ≤ width ∧ 0 ≤ y ≤ height ∧ 30 ≤ h ≤ 255.
Proof.
  set (g := rand w).
  exists (2 + raw g (used g) `mod` 3),
         (0 + raw g (S (used g)) `mod` 701),
         (0 + raw g (S (S (used g))) `mod` 501),
         (30 + raw g (S (S (S (used g)))) `mod` 226),
         (mkGen (raw g) (S (S (S (S (used g)))))).
  split; [reflexivity |]. unfold width, height.
  pose proof (Z.mod_pos_bound (raw g (used g)) 3).
  pose proof (Z.mod_pos_bound (raw g (S (used g))) 701).
  pose proof (Z.mod_pos_bound (raw g (S (S (used g)))) 501).
  pose proof (Z.mod_pos_bound (raw g (S (S (S (used g))))) 226).
  lia.
Qed.

Definition radius_ok (r : Z) : Prop := r = 2 ∨ r = 3 ∨ r = 4.
Definition start_ok (p : Z * Z) : Prop := 0 ≤ p.1 ≤ width ∧ 0 ≤ p.2 ≤ height.
Definition gray_ok (c : Z * Z * Z) : Prop :=
  ∃ h, c = (h, h, h) ∧ 30 ≤ h ≤ 255.

Lemma create_loop_spec idxs : ∀ w,
  ∃ w' ps rs cs,
    for_each create_flake idxs w = Some w' ∧
    snow_list w' = snow_list w ++ ps ∧ size_list w' = size_list w ++ rs ∧
    color_list w' = color_list w ++ cs ∧
    length ps = length idxs ∧ length rs = length idxs ∧ length cs = length idxs ∧
    Forall start_ok ps ∧ Forall radius_ok rs ∧ Forall gray_ok cs ∧
    time_passed w' = time_passed w ∧ time_since w' = time_since w ∧
    num_changed w' = num_changed w ∧ done w' = done w.
Proof.
  induction idxs as [| n idxs IH]; intros w.
  - exists w, [], [], []. rewrite !app_nil_r. by split_and!.
  - destruct (create_flake_Some n w) as (r & x & y & h & g & Hc & Hr & Hx & Hy & Hh).
    destruct (IH (mkWorld (time_passed w) (time_since w) (num_changed w) (done w)
                    (snow_list w ++ [(x, y)]) (size_list w ++ [r])
                    (color_list w ++ [(h, h, h)]) (snow_half w) g (screen w)))
      as (w' & ps & rs & cs & Hloop & Hps & Hrs & Hcs & Hl1 & Hl2 & Hl3 & Hf1 & Hf2 & Hf3 & Ht).
    simpl in Hps, Hrs, Hcs, Ht.
    exists w', ((x, y) :: ps), (r :: rs), ((h, h, h) :: cs).
    split_and!; try (simpl; f_equal; done); try tauto.
    + change (for_each create_flake (n :: idxs) w)
        with (create_flake n w ≫= for_each create_flake idxs).
      by rewrite Hc.
    + by rewrite Hps, <- app_assoc.
    + by rewrite Hrs, <- app_assoc.
    + by rewrite Hcs, <- app_assoc.
    + by constructor.
    + constructor; [| done]. unfold radius_ok. lia.
    + constructor; [| done]. by exists h.
Qed.

(** The world the main loop starts from. *)
Lemma init_spec g :
  ∃ w, init g = Some w ∧
       length (snow_list w) = flakes_amount ∧ ready w ∧
       Forall start_ok (snow_list w) ∧ Forall radius_ok (size_list w) ∧
       Forall gray_ok (color_list w) ∧
       time_passed w = 0 ∧ time_since w = 0 ∧ num_changed w = 0 ∧ done w = false.
Proof.
  unfold init.
  assert (Hn : length (range 0 flakes_amount) = flakes_amount)
    by (unfold range; rewrite length_seq; lia).
  revert Hn. generalize (range 0 flakes_amount). intros idxs Hn.
  destruct (create_loop_spec idxs (blank g))
    as (w & ps & rs & cs & Hloop & Hps & Hrs & Hcs & Hl1 & Hl2 & Hl3 & Hf1 & Hf2 & Hf3 & Ht).
  change (snow_list (blank g) ++ ps) with ps in Hps.
  change (size_list (blank g) ++ rs) with rs in Hrs.
  change (color_list (blank g) ++ cs) with cs in Hcs.
  rewrite Hn in Hl1, Hl2, Hl3. rewrite Hloop.
  exists (set_snow_half (length (snow_list w) `div` 2)%nat w).
  split; [done |]. unfold ready.
  change (snow_list (set_snow_half ?n w)) with (snow_list w).
  change (size_list (set_snow_half ?n w)) with (size_list w).
  change (color_list (set_snow_half ?n w)) with (color_list w).
  rewrite Hps, Hrs, Hcs.
  split_and!; try done; try congruence; try apply Ht.
Qed.

(** ** The run *)

Lemma main_loop_done inps w : done w = true → main_loop inps w = Some w.
Proof. intros H. destruct inps; simpl; [done | by rewrite H]. Qed.

Lemma main_loop_app l1 l2 w :
  main_loop (l1 ++ l2) w = main_loop l1 w ≫= main_loop l2.
Proof.
  revert w. induction l1 as [| inp l1 IH]; intros w; simpl; [done |].
  destruct (done w) eqn:Hd; simpl.
  - by rewrite main_loop_done.
  - destruct (frame inp w); simpl; [apply IH | done].
Qed.

(** What holds of every world the main loop reaches from [w]: the lists stay
    parallel, the two counters stay in step and only grow, and sizes and
    colours are those of [w]. *)
Lemma main_loop_spec inps : ∀ w,
  ready w → in_step w →
  ∃ w', main_loop inps w = Some w' ∧ ready w' ∧ in_step w' ∧
        size_list w' = size_list w ∧ color_list w' = color_list w ∧
        length (snow_list w') = length (snow_list w) ∧
        snow_half w' = snow_half w ∧
        time_since w ≤ time_since w' ∧ num_changed w ≤ num_changed w'.
Proof.
  induction inps as [| inp inps IH]; intros w Hr Hs.
  - exists w. by split_and!.
  - simpl. destruct (done w) eqn:Hd.
    { exists w. by split_and!. }
    destruct (frame_spec inp w Hr) as (w1 & Hf & Hk & _).
    destruct (at_snow_rest inp w) as (Ha1 & Ha2 & Ha3 & Ha4 & _).
    destruct (at_snow_counters inp w) as (Hc1 & Hc2 & _).
    pose proof Hk as [_ Hk2 Hk3 _ Hk5 Hk6 Hk7 Hk8].
    assert (Hs1 : in_step w1).
    { pose proof (timer_in_step (ticks inp) w Hs) as Ht.
      unfold in_step in *. rewrite Hk2, Hk3, Hc1, Hc2. done. }
    destruct (IH w1) as (w' & Hm & Hr' & Hs' & E1 & E2 & E3 & E4 & L1 & L2).
    { eapply keeps_ready; [done |]. by apply at_snow_ready. }
    { done. }
    exists w'. rewrite Hf. simpl. rewrite Hm.
    split_and!; try done; try congruence.
    + destruct (timer_cases (ticks inp) w) as [(_ & T1 & T2) | (_ & T1 & T2)]; lia.
    + destruct (timer_cases (ticks inp) w) as [(_ & T1 & T2) | (_ & T1 & T2)]; lia.
Qed.

(** A world the program can be in at the start of an iteration of the main
    loop (or when the loop has ended). *)
Definition reachable (w : World) : Prop :=
  ∃ g inps, program g inps = Some w.

Lemma program_run g inps w0 :
  init g = Some w0 → program g inps = main_loop inps w0.
Proof. intros H. unfold program. by rewrite H. Qed.

Lemma program_spec g inps :
  ∃ w0 w, init g = Some w0 ∧ program g inps = Some w ∧
          ready w ∧ in_step w ∧
          size_list w = size_list w0 ∧ color_list w = color_list w0 ∧
          length (snow_list w) = flakes_amount ∧
          snow_half w = (flakes_amount `div` 2)%nat.
Proof.
  destruct (init_spec g) as (w0 & Hi & Hn & Hr & _ & _ & _ & _ & Hts & Hnc & _).
  destruct (main_loop_spec inps w0 Hr) as (w & Hm & Hr' & Hs' & E1 & E2 & E3 & E4 & _).
  { unfold in_step. lia. }
  exists w0, w. unfold program. rewrite Hi. simpl.
  destruct Hr as (_ & _ & Hh).
  split_and!; [reflexivity | exact Hm | exact Hr' | exact Hs' | exact E1 | exact E2 | |].
  - rewrite E3. exact Hn.
  - rewrite E4, Hh, Hn. reflexivity.
Qed.

Lemma reachable_spec w :
  reachable w →
  ready w ∧ in_step w ∧ length (snow_list w) = flakes_amount ∧
  snow_half w = (flakes_amount `div` 2)%nat.
Proof.
  intros (g & inps & Hp).
  destruct (program_spec g inps) as (w0 & w' & _ & Hp' & ? & ? & _ & _ & ? & ?).
  rewrite Hp in Hp'. injection Hp' as <-. tauto.
Qed.

(** ** The clock *)

(** [pygame.time.get_ticks()] is the time elapsed since start-up: the
    readings of successive frames start at or after [t] and never go
    back. *)
Fixpoint rising (t : Z) (inps : list Input) : Prop :=
  match inps with
  | [] => True
  | inp :: rest => t ≤ ticks inp ∧ rising (ticks inp) rest
  end.

(** The reading of the last frame, [t] when there was none. *)
Fixpoint last_tick (t : Z) (inps : list Input) : Z :=
  match inps with
  | [] => t
  | inp :: rest => last_tick (ticks inp) rest
  end.

Lemma rising_last t inps : rising t inps → t ≤ last_tick t inps.
Proof.
  revert t. induction inps as [| inp inps IH]; intros t; simpl; [lia |].
  intros [H1 H2]. specialize (IH _ H2). lia.
Qed.

Lemma rising_app t l1 l2 :
  rising t (l1 ++ l2) ↔ rising t l1 ∧ rising (last_tick t l1) l2.
Proof.
  revert t. induction l1 as [| inp l1 IH]; intros t; simpl; [tauto |].
  rewrite IH. tauto.
Qed.

Lemma at_snow_done inp w :
  done (at_snow inp w) = done w || bool_decide (QUIT ∈ events inp).
Proof.
  unfold at_snow.
  destruct (timer_rest (ticks inp) (fill navy (poll (events inp) w))) as (-> & _).
  unfold fill, poll. destruct (bool_decide (QUIT ∈ events inp)); simpl;
    by destruct (done w).
Qed.

(** With a clock that never goes back, [time_since] stays at or below the
    last reading. *)
Lemma main_loop_clock inps : ∀ t w w',
  ready w → rising t inps → time_passed w ≤ t →
  time_since w ≤ time_passed w →
  main_loop inps w = Some w' →
  time_since w' ≤ time_passed w' ∧ time_passed w' ≤ last_tick t inps.
Proof.
  induction inps as [| inp inps IH]; intros t w w' Hr Hrise Ht Hle Hm.
  - injection Hm as <-. simpl. lia.
  - destruct Hrise as [Hrise1 Hrise2].
    pose proof (rising_last _ _ Hrise2) as Hlast.
    simpl in Hm. destruct (done w).
    { injection Hm as <-. simpl. lia. }
    destruct (frame_spec inp w Hr) as (w1 & Hf & Hk & _).
    rewrite Hf in Hm. simpl in Hm.
    destruct (at_snow_counters inp w) as (Hc1 & Hc2 & Hc3).
    pose proof Hk as [Hk1 Hk2 _ _ _ _ _ _].
    apply (IH (ticks inp) w1 w'); try done.
    + eapply keeps_ready; [done |]. by apply at_snow_ready.
    + rewrite Hk1, Hc3. lia.
    + rewrite Hk1, Hk2, Hc1, Hc3.
      destruct (timer_cases (ticks inp) w) as [(? & -> & _) | (? & -> & _)]; lia.
Qed.

(** ** Worlds used as concrete inputs *)

(** The world after initialisation when every raw output of the generator
    is zero: all flakes at the origin, radius 2, intensity 30. *)
Definition still_start : World :=
  default (blank (const 0)) (init (const 0)).

(** A one-flake world, with the counters and the flake chosen freely. *)
Definition lone (since changed : Z) (p : Z * Z) : World :=
  mkWorld 0 since changed false [p] [2] [(30, 30, 30)] 0%nat (const 0)
          (mkScreen navy []).

(** * The claims *)

(** ** C1: the wind override *)

(** The test of the override sees the run only through the difference
    time_since - 10000 * num_changed, and the timer keeps that difference:
    the test has the same outcome before and after every timer update, so
    an override that fired once would fire in every later call. *)
Lemma timer_keeps_wind_test now w :
  wind_changes (timer now w) = wind_changes w.
Proof.
  unfold wind_changes.
  destruct (timer_cases now w) as [(_ & -> & ->) | (_ & -> & ->)]; [| done].
  destruct (Z.gtb_spec (time_since w + 10000)
              (10000 + 10000 * (num_changed w + 1))),
           (Z.gtb_spec (time_since w) (10000 + 10000 * num_changed w));
    (done || lia).
Qed.

(** C1: the code misses what the claim says.  A first frame that reads the
    clock at 25000 leaves num_changed at 1, so the elapsed time 25000
    exceeds 10000 * (1 + num_changed) = 20000 and the claim has every flake
    drifted horizontally by 100.  The code tests [time_since] where the
    claim has the elapsed time: for every generator the test is false after
    that frame's timer update, the branch that sets [x_wind] to 100 is not
    taken, and every flake is moved by the wind of its half, (1, 2) or
    (4, 4). *)
Theorem C1_override_missed g :
  ∃ w0 w1,
    init g = Some w0 ∧ frame (mkInput [] 25000) w0 = Some w1 ∧
    time_passed w1 = 25000 ∧ num_changed w1 = 1 ∧
    10000 * (1 + num_changed w1) < time_passed w1 ∧
    wind_changes w1 = false ∧
    ∀ j p, snow_list w0 !! j = Some p →
           ∃ q, snow_list w1 !! j = Some q ∧
                lands (wind_of w0 j).1 (wind_of w0 j).2 p q.
Proof.
  destruct (init_spec g) as (w0 & Hi & _ & Hr & _ & _ & _ & _ & Hts & Hnc & _).
  set (inp := mkInput [] 25000).
  destruct (frame_spec inp w0 Hr) as (w1 & Hf & Hk & Hmove).
  destruct (at_snow_counters inp w0) as (Hc1 & Hc2 & Hc3).
  destruct (timer_cases 25000 w0) as [(_ & T1 & T2) | (? & _)]; [| lia].
  change (ticks inp) with 25000 in Hc1, Hc2, Hc3.
  assert (Hcalm : wind_changes (at_snow inp w0) = false).
  { apply in_step_calm. unfold in_step. rewrite Hc1, Hc2, T1, T2. lia. }
  pose proof Hk as [K0 K1 K2 _ _ _ _ _].
  exists w0, w1. split; [exact Hi |]. split; [exact Hf |].
  split; [by rewrite K0, Hc3 |]. split; [rewrite K2, Hc2, T2; lia |].
  split; [rewrite K0, K2, Hc2, Hc3, T2; lia |].
  split; [by rewrite (keeps_wind_changes _ _ Hk) |].
  intros j p Hjp. destruct (Hmove j p Hjp) as (q & Hq & Hland).
  exists q. split; [exact Hq |]. unfold blow in Hland. by rewrite Hcalm in Hland.
Qed.

(** That frame with the generator at zero: flake 0 goes from (0, 0) to
    (1, 2), and flake 100 to (4, 4). *)
Example flakes_after_25000 :
  (λ w, (snow_list w !! 0%nat, snow_list w !! 100%nat))
    <$> program (const 0) [mkInput [] 25000]
  = Some (Some (1, 2), Some (4, 4)).
Proof. by vm_compute. Qed.

(** ** C2: the override never fires in a run *)

(** C2: in every world the program reaches, once the timer has run,
    [time_since] is 10000 * num_changed; the test of the override is then
    false in that world and in every world of the two [letItSnow] calls
    (they keep both counters), so the local [x_wind] comes out of the
    first call still 1 and out of the second still 4, and every flake is
    moved by the wind of its half. *)
Theorem C2_override_unreachable g inps inp w :
  program g inps = Some w →
  let wt := at_snow inp w in
  time_since wt = 10000 * num_changed wt ∧
  (∀ w', keeps wt w' → wind_changes w' = false) ∧
  ∃ w1 w2,
    snow_loop (range 0 (snow_half wt)) 2 (1, wt) = Some (1, w1) ∧ keeps wt w1 ∧
    snow_loop (range (snow_half w1) (length (snow_list w1))) 4 (4, w1)
    = Some (4, w2) ∧ keeps w1 w2 ∧
    frame inp w = Some w2 ∧
    ∀ j p, snow_list w !! j = Some p →
           ∃ q, snow_list w2 !! j = Some q ∧
                lands (wind_of w j).1 (wind_of w j).2 p q.
Proof.
  intros Hp wt.
  destruct (reachable_spec w) as (Hr & Hs & Hn & Hh); [by exists g, inps |].
  assert (Hst : in_step wt).
  { destruct (at_snow_counters inp w) as (Hc1 & Hc2 & _).
    pose proof (timer_in_step (ticks inp) w Hs) as Ht.
    unfold in_step, wt in *. by rewrite Hc1, Hc2. }
  pose proof (in_step_calm wt Hst) as Hcalm.
  assert (Hblow : ∀ x, blow x wt = x) by (intros x; unfold blow; by rewrite Hcalm).
  split; [exact Hst |]. split.
  { intros w' Hk. by rewrite (keeps_wind_changes _ _ Hk). }
  pose proof (at_snow_ready inp w Hr) as (Hrs & Hrc & Hrh). fold wt in Hrs, Hrc, Hrh.
  destruct (at_snow_rest inp w) as (Hsnow & _ & _ & Hhalf & _). fold wt in Hsnow, Hhalf.
  assert (Hlen : length (snow_list wt) = flakes_amount) by (rewrite Hsnow; exact Hn).
  assert (Hhalf' : snow_half wt = 100%nat) by (rewrite Hhalf; exact Hh).
  destruct (snow_loop_spec (range 0 (snow_half wt)) 2 (NoDup_seq _ _) 1 wt)
    as (w1 & Hl1 & Hk1 & _).
  { intros i Hi%elem_of_range. unfold indexed. rewrite Hrs, Hrc, Hlen, Hhalf' in *.
    unfold flakes_amount. lia. }
  pose proof Hk1 as [_ _ _ _ Hs1 Hc1 Hh1 Hn1].
  destruct (snow_loop_spec (range (snow_half w1) (length (snow_list w1))) 4
              (NoDup_seq _ _) 4 w1) as (w2 & Hl2 & Hk2 & _).
  { intros i Hi%elem_of_range. unfold indexed. rewrite Hs1, Hc1, Hrs, Hrc. lia. }
  rewrite (keeps_blow _ _ _ Hk1), Hblow in Hl2. rewrite Hblow in Hl1.
  assert (Hl1' : snow_loop (range 0 (snow_half wt)) 2 (1, wt) = Some (1, w1))
    by (rewrite Hl1; by destruct (range 0 (snow_half wt))).
  assert (Hl2' : snow_loop (range (snow_half w1) (length (snow_list w1))) 4 (4, w1)
                 = Some (4, w2))
    by (rewrite Hl2; by destruct (range (snow_half w1) (length (snow_list w1)))).
  clear Hl1 Hl2.
  destruct (frame_spec inp w Hr) as (w2' & Hf & _ & Hmove).
  assert (Hf2 : frame inp w = Some w2).
  { unfold frame. fold (at_snow inp w). fold wt. unfold letItSnow.
    cbv zeta. rewrite Hl1'. cbn [fmap option_fmap option_map mbind option_bind snd].
    by rewrite Hl2'. }
  exists w1, w2. split_and!; [exact Hl1' | exact Hk1 | exact Hl2' | exact Hk2 | exact Hf2 |].
  rewrite Hf in Hf2. injection Hf2 as <-.
  intros j p Hjp. destruct (Hmove j p Hjp) as (q & Hq & Hland).
  exists q. split; [done |]. fold wt in Hland. by rewrite Hblow in Hland.
Qed.

Lemma C2_override_unreachable_witness :
  let wt := at_snow (mkInput [] 25000) still_start in
  time_since wt = 10000 * num_changed wt ∧
  (∀ w', keeps wt w' → wind_changes w' = false) ∧
  ∃ w1 w2,
    snow_loop (range 0 (snow_half wt)) 2 (1, wt) = Some (1, w1) ∧ keeps wt w1 ∧
    snow_loop (range (snow_half w1) (length (snow_list w1))) 4 (4, w1)
    = Some (4, w2) ∧ keeps w1 w2 ∧
    frame (mkInput [] 25000) still_start = Some w2 ∧
    ∀ j p, snow_list still_start !! j = Some p →
           ∃ q, snow_list w2 !! j = Some q ∧
                lands (wind_of still_start j).1 (wind_of still_start j).2 p q.
Proof.
  apply (C2_override_unreachable (const 0) [] (mkInput [] 25000) still_start).
  vm_compute. reflexivity.
Defined.

(** ** C3: time_since along the run *)

(** C3: with a clock that reads elapsed time (non-negative, never going
    back), in every world of the run [time_since] is a multiple of 10000
    and at most [time_passed], and one more frame does not decrease it. *)
Theorem C3_time_since_invariant g inps inp w :
  rising 0 (inps ++ [inp]) →
  program g inps = Some w →
  (10000 | time_since w) ∧ time_since w ≤ time_passed w ∧
  ∃ w', program g (inps ++ [inp]) = Some w' ∧
        time_since w ≤ time_since w' ∧
        (10000 | time_since w') ∧ time_since w' ≤ time_passed w'.
Proof.
  intros Hrise Hp.
  apply rising_app in Hrise as [Hrise1 Hrise2].
  destruct (program_spec g inps) as (w0 & w_ & Hi & Hp' & Hr & Hs & _).
  rewrite Hp in Hp'. injection Hp' as <-.
  destruct (init_spec g) as (w0' & Hi' & _ & Hr0 & _ & _ & _ & Htp & Hts & Hnc & _).
  rewrite Hi in Hi'. injection Hi' as <-.
  assert (Hm : main_loop inps w0 = Some w).
  { by rewrite <- (program_run g inps w0 Hi). }
  destruct (main_loop_clock inps 0 w0 w Hr0 Hrise1) as [Hle Hlast]; [lia | lia | done |].
  destruct (main_loop_spec [inp] w Hr Hs) as (w' & Hm' & Hr' & Hs' & _ & _ & _ & _ & Hmono & _).
  destruct (main_loop_clock [inp] (last_tick 0 inps) w w' Hr Hrise2) as [Hle' _];
    [lia | done | done |].
  split_and!.
  - rewrite Hs. apply Z.divide_factor_l.
  - done.
  - exists w'. split_and!; [| done | | done].
    + rewrite (program_run g _ w0 Hi), main_loop_app, Hm. exact Hm'.
    + rewrite Hs'. apply Z.divide_factor_l.
Qed.

Lemma C3_time_since_invariant_witness :
  (10000 | time_since still_start) ∧ time_since still_start ≤ time_passed still_start ∧
  ∃ w', program (const 0) ([] ++ [mkInput [] 34567]) = Some w' ∧
        time_since still_start ≤ time_since w' ∧
        (10000 | time_since w') ∧ time_since w' ≤ time_passed w'.
Proof.
  apply (C3_time_since_invariant (const 0) [] (mkInput [] 34567) still_start).
  - simpl. lia.
  - vm_compute. reflexivity.
Defined.

(** ** C4: the two clock readings of the scenario *)

(** C4: from the start of the run, whatever the generator and the events,
    a frame that reads the clock at 9999 leaves [time_since] and
    [num_changed] at 0 and 0; a frame that reads it at 10001 makes them
    10000 and 1, also when it comes after the frame at 9999. *)
Theorem C4_scenario g evs :
  ∃ w1 w2 w3,
    program g [mkInput evs 9999] = Some w1 ∧
    time_since w1 = 0 ∧ num_changed w1 = 0 ∧
    program g [mkInput evs 10001] = Some w2 ∧
    time_since w2 = 10000 ∧ num_changed w2 = 1 ∧
    program g [mkInput [] 9999; mkInput evs 10001] = Some w3 ∧
    time_since w3 = 10000 ∧ num_changed w3 = 1.
Proof.
  destruct (init_spec g) as (w0 & Hi & _ & Hr & _ & _ & _ & _ & Hts & Hnc & Hd).
  assert (Hstep : ∀ evs t w, ready w → done w = false →
            ∃ w', main_loop [mkInput evs t] w = Some w' ∧ ready w' ∧
                  done w' = bool_decide (QUIT ∈ evs) ∧
                  time_since w' = time_since (timer t w) ∧
                  num_changed w' = num_changed (timer t w)).
  { intros evs' t w Hrw Hdw.
    destruct (frame_spec (mkInput evs' t) w Hrw) as (w' & Hf & Hk & _).
    destruct (at_snow_counters (mkInput evs' t) w) as (Hc1 & Hc2 & _).
    pose proof (at_snow_done (mkInput evs' t) w) as Hc3.
    rewrite Hdw in Hc3. simpl in Hc1, Hc2, Hc3.
    exists w'. simpl. rewrite Hdw, Hf. destruct Hk.
    split_and!; [done | | congruence ..].
    eapply keeps_ready; [by constructor |]. by apply at_snow_ready. }
  destruct (Hstep evs 9999 w0 Hr Hd) as (w1 & H1 & _ & _ & T1 & N1).
  destruct (Hstep evs 10001 w0 Hr Hd) as (w2 & H2 & _ & _ & T2 & N2).
  destruct (Hstep [] 9999 w0 Hr Hd) as (v & Hv & Hrv & Hdv & Tv & Nv).
  destruct (Hstep evs 10001 v Hrv Hdv) as (w3 & H3 & _ & _ & T3 & N3).
  exists w1, w2, w3. rewrite !(program_run g _ w0 Hi).
  change [mkInput [] 9999; mkInput evs 10001]
    with ([mkInput [] 9999] ++ [mkInput evs 10001]).
  rewrite main_loop_app, Hv.
  destruct (timer_cases 9999 w0) as [(? & ? & ?) | (? & ? & ?)]; [lia |].
  destruct (timer_cases 10001 w0) as [(? & ? & ?) | (? & ? & ?)]; [| lia].
  destruct (timer_cases 10001 v) as [(? & ? & ?) | (? & ? & ?)]; [| lia].
  split_and!; [done | lia | lia | done | lia | lia | done | lia | lia].
Qed.

(** ** C5: one increment per frame at most *)

(** C5: in every world the program reaches, a frame runs to its end and
    leaves [num_changed] the same or one larger, whatever the clock reads:
    no reading, however late, counts two intervals in one frame. *)
Theorem C5_one_increment_per_frame g inps inp w :
  program g inps = Some w →
  ∃ w', frame inp w = Some w' ∧
        (num_changed w' = num_changed w ∨ num_changed w' = num_changed w + 1).
Proof.
  intros Hp.
  destruct (reachable_spec w) as (Hr & _); [by exists g, inps |].
  destruct (frame_spec inp w Hr) as (w' & Hf & Hk & _).
  destruct (at_snow_counters inp w) as (_ & Hc2 & _).
  exists w'. split; [done |]. destruct Hk as [_ _ -> _ _ _ _ _]. rewrite Hc2.
  destruct (timer_cases (ticks inp) w) as [(_ & _ & ->) | (_ & _ & ->)]; tauto.
Qed.

Lemma C5_one_increment_per_frame_witness :
  ∃ w', frame (mkInput [] 50000) still_start = Some w' ∧
        (num_changed w' = num_changed still_start ∨
         num_changed w' = num_changed still_start + 1).
Proof.
  apply (C5_one_increment_per_frame (const 0) [] (mkInput [] 50000) still_start).
  vm_compute. reflexivity.
Defined.

(** A frame that reads the clock five intervals after the last threshold
    counts one of them. *)
Example late_frame_counts_one :
  num_changed <$> program (const 0) [mkInput [] 50000] = Some 1 ∧
  time_since <$> program (const 0) [mkInput [] 50000] = Some 10000.
Proof. by vm_compute. Qed.

(** ** C6: the two recycling checks *)





(** The scenario of a flake at y = 504 and the one of a flake leaving on
    the right, with a generator whose outputs are 7, 8, 9, ...: each flake
    is recycled once, to the values the two draws give. *)
Example recycle_scenarios :
  snow_list <$> letItSnow 0 1 1 2
                  (set_rand (mkGen (λ n, 7 + Z.of_nat n) 0) (lone 0 0 (10, 502)))
  = Some [(8, -43)] ∧
  snow_list <$> letItSnow 0 1 4 4
                  (set_rand (mkGen (λ n, 7 + Z.of_nat n) 0) (lone 0 0 (700, 100)))
  = Some [(-42, 7)].
Proof. by vm_compute. Qed.

(** ** C7: where a flake is after its update *)

(** C7: after the iteration, y is at most [height + 3] or the first check
    fired and y is the value in [-50, -10) it drew; x is at most
    [width + 3] or the second check fired and x is the value in
    [-50, -10) it drew.  Both tests are strict: at y = [height + 3] the
    first check leaves the world as it is, and at x = [width + 3] so does
    the second. *)
Theorem C7_position_after_update i y_wind x_wind w p :
  snow_list w !! i = Some p →
  (i < length (size_list w))%nat → (i < length (color_list w))%nat →
  ∃ wd wb wr d m q,
    draw_circle i w ≫= drifting i (blow x_wind w) y_wind = Some wd ∧
    recycle_bottom i wd = Some wb ∧
    recycle_right i wb = Some wr ∧
    snow_body i y_wind (x_wind, w) = Some (blow x_wind w, wr) ∧
    snow_list wd !! i = Some d ∧ snow_list wb !! i = Some m ∧
    snow_list wr !! i = Some q ∧
    (q.2 ≤ height + 3 ∨ (height + 3 < d.2 ∧ -50 ≤ q.2 < -10)) ∧
    (q.1 ≤ width + 3 ∨ (width + 3 < m.1 ∧ -50 ≤ q.1 < -10)) ∧
    (d.2 = height + 3 → wb = wd) ∧
    (m.1 = width + 3 → wr = wb).
Proof.
  intros Hp Hs Hc.
  pose proof (lookup_lt_Some _ _ _ Hp) as Hi.
  destruct (snow_body_trace i y_wind x_wind w p Hp Hs Hc)
    as (wd & wb & wr & d & m & q & gb & gr & s & H1 & H2 & H3 & H4 & -> & -> & -> & Hd & Hm & Hq).
  exists (moved i d (rand w) s w), (moved i m gb s w), (moved i q gr s w), d, m, q.
  rewrite !moved_lookup by done.
  unfold above_top, left_of_left, width, height in *.
  destruct (Z.gtb_spec (d.2) (500 + 3)), (Z.gtb_spec (m.1) (700 + 3));
    split_and!; try done; try lia;
    try (destruct Hm as [-> ->]); try (destruct Hq as [-> ->]); try done; try lia.
Qed.

Lemma C7_position_after_update_witness :
  ∃ wd wb wr d m q,
    draw_circle 0 (lone 0 0 (702, 501))
      ≫= drifting 0 (blow 1 (lone 0 0 (702, 501))) 2 = Some wd ∧
    recycle_bottom 0 wd = Some wb ∧
    recycle_right 0 wb = Some wr ∧
    snow_body 0 2 (1, lone 0 0 (702, 501))
    = Some (blow 1 (lone 0 0 (702, 501)), wr) ∧
    snow_list wd !! 0%nat = Some d ∧ snow_list wb !! 0%nat = Some m ∧
    snow_list wr !! 0%nat = Some q ∧
    (q.2 ≤ height + 3 ∨ (height + 3 < d.2 ∧ -50 ≤ q.2 < -10)) ∧
    (q.1 ≤ width + 3 ∨ (width + 3 < m.1 ∧ -50 ≤ q.1 < -10)) ∧
    (d.2 = height + 3 → wb = wd) ∧
    (m.1 = width + 3 → wr = wb).
Proof.
  apply (C7_position_after_update 0 2 1 (lone 0 0 (702, 501)) (702, 501));
    [reflexivity | simpl; lia | simpl; lia].
Defined.

(** The scenarios of the margin: a flake drifted to (699, 102) or to
    (702, 102) stays; one drifted onto the corner (703, 503) stays; one
    step further right it is recycled. *)
Example margin_scenarios :
  snow_list <$> letItSnow 0 1 1 2 (lone 0 0 (698, 100)) = Some [(699, 102)] ∧
  snow_list <$> letItSnow 0 1 1 2 (lone 0 0 (701, 100)) = Some [(702, 102)] ∧
  snow_list <$> letItSnow 0 1 1 2 (lone 0 0 (702, 501)) = Some [(703, 503)] ∧
  snow_list <$> letItSnow 0 1 1 2 (lone 0 0 (703, 501)) = Some [(-50, 0)].
Proof. by vm_compute. Qed.

(** ** C8: the flakes at initialisation *)

(** C8, as stated, fails on the code: positions are claimed to lie in the
    half-open box [0, width) x [0, height).  [randint] includes its upper
    end: with the raw outputs 0, 700, 500, 0 the first flake is created at
    (700, 500). *)
Lemma C8_counterexample :
  ¬ (∀ g w, init g = Some w →
            Forall (λ p, 0 ≤ p.1 < width ∧ 0 ≤ p.2 < height) (snow_list w)).
Proof.
  intros H.
  set (g := script [0; 700; 500; 0]).
  specialize (H g (default (blank g) (init g))).
  assert (Hi : init g = Some (default (blank g) (init g))) by by vm_compute.
  specialize (H Hi).
  apply (Forall_lookup_1 _ _ 0%nat (700, 500)) in H; [| by vm_compute].
  unfold width in H. simpl in H. lia.
Qed.

(** The four library draws that make one flake, in the order of the loop
    body: radius, x, y, intensity, each on the generator the draw before it
    left. *)
Definition drawn_flake (g : Gen) (r : Z) (p : Z * Z) (c : Z * Z * Z) : Prop :=
  ∃ g1 g2 g3 g4 h,
    randint 2 4 g = Some (r, g1) ∧
    randint 0 width g1 = Some (p.1, g2) ∧
    randint 0 height g2 = Some (p.2, g3) ∧
    randint 30 255 g3 = Some (h, g4) ∧
    c = (h, h, h) ∧ g4 = skip 4 g.

Lemma create_flake_drawn n w :
  ∃ r p c,
    create_flake n w
    = Some (mkWorld (time_passed w) (time_since w) (num_changed w) (done w)
              (snow_list w ++ [p]) (size_list w ++ [r])
              (color_list w ++ [c]) (snow_half w) (skip 4 (rand w))
              (screen w)) ∧
    drawn_flake (rand w) r p c.
Proof.
  set (g := rand w).
  exists (2 + raw g (used g) `mod` (4 + 1 - 2)),
         (0 + raw g (S (used g)) `mod` (width + 1 - 0),
          0 + raw g (S (S (used g))) `mod` (height + 1 - 0)),
         (30 + raw g (S (S (S (used g)))) `mod` (255 + 1 - 30),
          30 + raw g (S (S (S (used g)))) `mod` (255 + 1 - 30),
          30 + raw g (S (S (S (used g)))) `mod` (255 + 1 - 30)).
  split; [reflexivity |].
  exists (mkGen (raw g) (S (used g))), (mkGen (raw g) (S (S (used g)))),
         (mkGen (raw g) (S (S (S (used g))))),
         (mkGen (raw g) (S (S (S (S (used g)))))),
         (30 + raw g (S (S (S (used g)))) `mod` (255 + 1 - 30)).
  by split_and!.
Qed.

(** The initialisation loop, with the draws it makes: flake [k] of the
    loop is made by the four draws that follow the first [4 * k]. *)
Lemma create_loop_drawn idxs : ∀ w,
  ∃ w' ps rs cs,
    for_each create_flake idxs w = Some w' ∧
    snow_list w' = snow_list w ++ ps ∧ size_list w' = size_list w ++ rs ∧
    color_list w' = color_list w ++ cs ∧
    rand w' = skip (4 * length idxs) (rand w) ∧
    ∀ k, (k < length idxs)%nat →
         ∃ r p c, rs !! k = Some r ∧ ps !! k = Some p ∧ cs !! k = Some c ∧
                  drawn_flake (skip (4 * k) (rand w)) r p c.
Proof.
  induction idxs as [| n idxs IH]; intros w.
  - exists w, [], [], []. rewrite !app_nil_r.
    split_and!; try done; [by rewrite skip_0 |].
    intros k Hk. simpl in Hk. lia.
  - destruct (create_flake_drawn n w) as (r & p & c & Hc & Hdrawn).
    destruct (IH (mkWorld (time_passed w) (time_since w) (num_changed w) (done w)
                    (snow_list w ++ [p]) (size_list w ++ [r])
                    (color_list w ++ [c]) (snow_half w) (skip 4 (rand w))
                    (screen w)))
      as (w' & ps & rs & cs & Hloop & Hps & Hrs & Hcs & Hrand & Hall).
    cbn [snow_list size_list color_list rand] in Hps, Hrs, Hcs, Hrand, Hall.
    exists w', (p :: ps), (r :: rs), (c :: cs).
    split_and!.
    + change (for_each create_flake (n :: idxs) w)
        with (create_flake n w ≫= for_each create_flake idxs).
      by rewrite Hc.
    + by rewrite Hps, <- app_assoc.
    + by rewrite Hrs, <- app_assoc.
    + by rewrite Hcs, <- app_assoc.
    + rewrite Hrand, skip_skip, length_cons. f_equal. lia.
    + intros [| k] Hk.
      * exists r, p, c. by rewrite skip_0.
      * rewrite length_cons in Hk.
        destruct (Hall k) as (r' & p' & c' & ? & ? & ? & Hd); [lia |].
        exists r', p', c'. split_and!; try done.
        rewrite skip_skip in Hd. by replace (4 * S k)%nat with (4 * k + 4)%nat by lia.
Qed.

Lemma init_drawn g :
  ∃ w, init g = Some w ∧
       rand w = skip (4 * flakes_amount) g ∧
       ∀ j, (j < flakes_amount)%nat →
            ∃ r p c, size_list w !! j = Some r ∧ snow_list w !! j = Some p ∧
                     color_list w !! j = Some c ∧
                     drawn_flake (skip (4 * j) g) r p c.
Proof.
  unfold init.
  assert (Hlen : length (range 0 flakes_amount) = flakes_amount)
    by (unfold range; rewrite length_seq; lia).
  revert Hlen. generalize (range 0 flakes_amount). intros idxs Hlen.
  destruct (create_loop_drawn idxs (blank g))
    as (w' & ps & rs & cs & Hloop & Hps & Hrs & Hcs & Hrand & Hall).
  change (snow_list (blank g) ++ ps) with ps in Hps.
  change (size_list (blank g) ++ rs) with rs in Hrs.
  change (color_list (blank g) ++ cs) with cs in Hcs.
  change (rand (blank g)) with g in Hrand, Hall.
  rewrite Hlen in Hrand, Hall. rewrite Hloop.
  exists (set_snow_half (length (snow_list w') `div` 2)%nat w').
  split; [done |].
  change (rand (set_snow_half ?n w')) with (rand w').
  change (snow_list (set_snow_half ?n w')) with (snow_list w').
  change (size_list (set_snow_half ?n w')) with (size_list w').
  change (color_list (set_snow_half ?n w')) with (color_list w').
  rewrite Hps, Hrs, Hcs. split; [exact Hrand | exact Hall].
Qed.

(** C8, amended: initialisation never raises and creates [flakes_amount]
    flakes.  Flake [j] is made by four successive calls of
    [random.randint], the library's uniform draw from a closed range, that
    follow the [4 * j] calls of the flakes before it: its radius is the
    result of [randint(2, 4)], its position the results of
    [randint(0, width)] and [randint(0, height)], its colour (h, h, h) with
    h the result of [randint(30, 255)].  So the radius is among 2, 3, 4,
    the position is in the closed box [0, width] x [0, height] (both upper
    ends included), and h is in [30, 255]; initialisation makes no other
    draw. *)
Theorem C8_initial_flakes g :
  ∃ w, init g = Some w ∧
       length (snow_list w) = flakes_amount ∧
       length (size_list w) = flakes_amount ∧
       length (color_list w) = flakes_amount ∧
       Forall (λ r, r = 2 ∨ r = 3 ∨ r = 4) (size_list w) ∧
       Forall (λ p, 0 ≤ p.1 ≤ width ∧ 0 ≤ p.2 ≤ height) (snow_list w) ∧
       Forall (λ c, ∃ h, c = (h, h, h) ∧ 30 ≤ h ≤ 255) (color_list w) ∧
       rand w = skip (4 * flakes_amount) g ∧
       ∀ j, (j < flakes_amount)%nat →
            ∃ r p c, size_list w !! j = Some r ∧ snow_list w !! j = Some p ∧
                     color_list w !! j = Some c ∧
                     drawn_flake (skip (4 * j) g) r p c.
Proof.
  destruct (init_spec g) as (w & Hi & Hn & (Hs & Hc & _) & Hf1 & Hf2 & Hf3 & _).
  destruct (init_drawn g) as (w2 & Hi2 & Hrand & Hall).
  rewrite Hi in Hi2. injection Hi2 as <-.
  exists w.
  split; [exact Hi |]. split; [exact Hn |].
  split; [rewrite Hs; exact Hn |]. split; [rewrite Hc; exact Hn |].
  split; [exact Hf2 |]. split; [exact Hf1 |]. split; [exact Hf3 |].
  split; [exact Hrand | exact Hall].
Qed.

(** The first two flakes when the generator's outputs are 7, 8, 9, ...:
    radius 2 + 7 mod 3, position (8, 9), intensity 30 + 10, then the next
    four outputs. *)
Example first_flakes_drawn :
  (λ w, (take 2 (size_list w), take 2 (snow_list w), take 2 (color_list w)))
    <$> init (mkGen (λ n, 7 + Z.of_nat n) 0)
  = Some ([3; 4], [(8, 9); (12, 13)], [(40, 40, 40); (44, 44, 44)]).
Proof. by vm_compute. Qed.

(** ** C9: the two halves, and what never changes *)

(** C9: in every world the program reaches there are [flakes_amount] flakes
    and [snow_half] is half of that; a frame runs to its end and moves each
    flake below [snow_half] by (1, 2) and each other flake by (4, 4), the
    flake ending at the drifted position unless that is off the bottom or
    off the right; sizes and colours are the ones initialisation made, and
    the frame leaves them as they are. *)
Theorem C9_two_halves g inps inp w :
  program g inps = Some w →
  length (snow_list w) = flakes_amount ∧
  snow_half w = (flakes_amount `div` 2)%nat ∧
  (∃ w0, init g = Some w0 ∧
         size_list w = size_list w0 ∧ color_list w = color_list w0) ∧
  ∃ w', frame inp w = Some w' ∧
        size_list w' = size_list w ∧ color_list w' = color_list w ∧
        ∀ j p, snow_list w !! j = Some p →
               ∃ q, snow_list w' !! j = Some q ∧
                    if decide (j < flakes_amount `div` 2)%nat
                    then lands 1 2 p q else lands 4 4 p q.
Proof.
  intros Hp.
  destruct (program_spec g inps) as (w0 & w_ & Hi & Hp' & Hr & Hs & E1 & E2 & Hn & Hh).
  rewrite Hp in Hp'. injection Hp' as <-.
  destruct (frame_spec inp w Hr) as (w' & Hf & Hk & Hmove).
  destruct (at_snow_rest inp w) as (_ & A2 & A3 & _).
  destruct (at_snow_counters inp w) as (C1 & C2 & _).
  assert (Hcalm : wind_changes (at_snow inp w) = false).
  { apply in_step_calm. pose proof (timer_in_step (ticks inp) w Hs) as Ht.
    unfold in_step in *. by rewrite C1, C2. }
  split; [exact Hn |]. split; [exact Hh |]. split.
  { exists w0. split; [exact Hi |]. split; [exact E1 | exact E2]. }
  exists w'. destruct Hk as [_ _ _ _ K1 K2 _ _].
  split; [exact Hf |]. split; [by rewrite K1 |]. split; [by rewrite K2 |].
  intros j p Hjp. destruct (Hmove j p Hjp) as (q & Hq & Hland).
  exists q. split; [exact Hq |].
  unfold blow in Hland. rewrite Hcalm in Hland.
  unfold wind_of in Hland. rewrite Hh in Hland.
  by destruct (decide (j < flakes_amount `div` 2)%nat).
Qed.

Lemma C9_two_halves_witness :
  length (snow_list still_start) = flakes_amount ∧
  snow_half still_start = (flakes_amount `div` 2)%nat ∧
  (∃ w0, init (const 0) = Some w0 ∧
         size_list still_start = size_list w0 ∧
         color_list still_start = color_list w0) ∧
  ∃ w', frame (mkInput [] 40) still_start = Some w' ∧
        size_list w' = size_list still_start ∧
        color_list w' = color_list still_start ∧
        ∀ j p, snow_list still_start !! j = Some p →
               ∃ q, snow_list w' !! j = Some q ∧
                    if decide (j < flakes_amount `div` 2)%nat
                    then lands 1 2 p q else lands 4 4 p q.
Proof.
  apply (C9_two_halves (const 0) [] (mkInput [] 40) still_start).
  vm_compute. reflexivity.
Defined.

(** The first frame of the run from [still_start]: the last flake of the
    first half is moved by (1, 2), the first of the second half by (4, 4). *)
Example halves_of_the_first_frame :
  (λ w, (snow_list w !! 99%nat, snow_list w !! 100%nat))
    <$> program (const 0) [mkInput [] 40]
  = Some (Some (1, 2), Some (4, 4)).
Proof. by vm_compute. Qed.

(** ** C10: at most one recycle per flake and frame *)

(** C10, as stated, fails on the code in its second half: after a recycle
    on the right the new y is claimed to lie in [-50, -10).  A flake at
    (700, 100) drifted by (4, 4) leaves on the right and is put at
    (-50, 0): the new y comes from [0, height - 50). *)
Lemma C10_counterexample :
  ¬ (∀ i y_wind x_wind w wr p q,
       snow_list w !! i = Some p →
       snow_body i y_wind (x_wind, w) = Some (blow x_wind w, wr) →
       snow_list wr !! i = Some q →
       p.2 + y_wind ≤ height + 3 → width + 3 < p.1 + blow x_wind w →
       -50 ≤ q.2 < -10).
Proof.
  intros H.
  set (w := lone 0 0 (700, 100)).
  set (wr := default w (snd <$> snow_body 0 4 (4, w))).
  assert (Hy : -50 ≤ (-50, 0).2 < -10); [| simpl in Hy; lia].
  apply (H 0%nat 4 4 w wr (700, 100) (-50, 0)); by vm_compute.
Qed.

(** C10, amended: at most one of the two checks fires in an iteration.  When
    the first fires the new x is in [0, width - 50), not above [width + 3],
    and the second check leaves the world as it is; when the second fires
    the first had left the world as it was, and the new position has x in
    [-50, -10) and y in [0, height - 50). *)
Theorem C10_at_most_one_recycle i y_wind x_wind w p :
  snow_list w !! i = Some p →
  (i < length (size_list w))%nat → (i < length (color_list w))%nat →
  ∃ wd wb wr d m q,
    draw_circle i w ≫= drifting i (blow x_wind w) y_wind = Some wd ∧
    recycle_bottom i wd = Some wb ∧
    recycle_right i wb = Some wr ∧
    snow_body i y_wind (x_wind, w) = Some (blow x_wind w, wr) ∧
    snow_list wd !! i = Some d ∧ snow_list wb !! i = Some m ∧
    snow_list wr !! i = Some q ∧
    (height + 3 < d.2 → 0 ≤ m.1 < width - 50 ∧ m.1 ≤ width + 3 ∧ wr = wb) ∧
    (width + 3 < m.1 →
       d.2 ≤ height + 3 ∧ wb = wd ∧
       -50 ≤ q.1 < -10 ∧ 0 ≤ q.2 < height - 50).
Proof.
  intros Hp Hs Hc.
  pose proof (lookup_lt_Some _ _ _ Hp) as Hi.
  destruct (snow_body_trace i y_wind x_wind w p Hp Hs Hc)
    as (wd & wb & wr & d & m & q & gb & gr & s & H1 & H2 & H3 & H4 & -> & -> & -> & Hd & Hm & Hq).
  exists (moved i d (rand w) s w), (moved i m gb s w), (moved i q gr s w), d, m, q.
  rewrite !moved_lookup by done.
  unfold above_top, left_of_left, width, height in *.
  destruct (Z.gtb_spec (d.2) (500 + 3)), (Z.gtb_spec (m.1) (700 + 3));
    try (destruct Hm as [-> ->]); try (destruct Hq as [-> ->]);
    (split_and!; try done; intros; split_and?; try done; try lia).
Qed.

Lemma C10_at_most_one_recycle_witness :
  ∃ wd wb wr d m q,
    draw_circle 0 (lone 0 0 (700, 100))
      ≫= drifting 0 (blow 4 (lone 0 0 (700, 100))) 4 = Some wd ∧
    recycle_bottom 0 wd = Some wb ∧
    recycle_right 0 wb = Some wr ∧
    snow_body 0 4 (4, lone 0 0 (700, 100))
    = Some (blow 4 (lone 0 0 (700, 100)), wr) ∧
    snow_list wd !! 0%nat = Some d ∧ snow_list wb !! 0%nat = Some m ∧
    snow_list wr !! 0%nat = Some q ∧
    (height + 3 < d.2 → 0 ≤ m.1 < width - 50 ∧ m.1 ≤ width + 3 ∧ wr = wb) ∧
    (width + 3 < m.1 →
       d.2 ≤ height + 3 ∧ wb = wd ∧
       -50 ≤ q.1 < -10 ∧ 0 ≤ q.2 < height - 50).
Proof.
  apply (C10_at_most_one_recycle 0 4 4 (lone 0 0 (700, 100)) (700, 100));
    [reflexivity | simpl; lia | simpl; lia].
Defined.

(** * Further properties of the program *)

(** ** The run never raises, and stops at the first quit *)

(** The program never raises: every index [letItSnow] uses is inside the
    three lists and every range given to the random source is non-empty,
    whatever the generator, the events and the clock readings. *)
Theorem program_never_raises g inps : is_Some (program g inps).
Proof.
  destruct (program_spec g inps) as (w0 & w & _ & Hp & _).
  by exists w.
Qed.

Lemma frame_done inp w w' :
  ready w → frame inp w = Some w' →
  done w' = done w || bool_decide (QUIT ∈ events inp).
Proof.
  intros Hr Hf. destruct (frame_spec inp w Hr) as (w1 & Hf1 & Hk & _).
  rewrite Hf in Hf1. injection Hf1 as <-.
  destruct Hk as [_ _ _ -> _ _ _ _]. apply at_snow_done.
Qed.

Lemma frame_time_passed inp w w' :
  ready w → frame inp w = Some w' → time_passed w' = ticks inp.
Proof.
  intros Hr Hf. destruct (frame_spec inp w Hr) as (w1 & Hf1 & Hk & _).
  rewrite Hf in Hf1. injection Hf1 as <-.
  destruct Hk as [-> _ _ _ _ _ _ _]. apply at_snow_counters.
Qed.

(** Every frame of a run starts from parallel lists and counters in step,
    and ends that way. *)
Lemma frame_ready inp w w' :
  ready w → in_step w → frame inp w = Some w' → ready w' ∧ in_step w'.
Proof.
  intros Hr Hs Hf. destruct (frame_spec inp w Hr) as (w1 & Hf1 & Hk & _).
  rewrite Hf in Hf1. injection Hf1 as <-.
  split.
  - eapply keeps_ready; [done |]. by apply at_snow_ready.
  - destruct (at_snow_counters inp w) as (Hc1 & Hc2 & _).
    pose proof (timer_in_step (ticks inp) w Hs) as Ht.
    destruct Hk as [_ K1 K2 _ _ _ _ _].
    unfold in_step in *. by rewrite K1, K2, Hc1, Hc2.
Qed.

(** A property that the start has and every frame keeps holds of every
    world of the run. *)
Lemma main_loop_invariant (P : World → Prop) :
  (∀ inp w w', ready w → in_step w → P w → frame inp w = Some w' → P w') →
  ∀ inps w w', ready w → in_step w → P w → main_loop inps w = Some w' → P w'.
Proof.
  intros Hframe. induction inps as [| inp inps IH]; intros w w' Hr Hs HP Hm.
  - by injection Hm as <-.
  - simpl in Hm. destruct (done w); [by injection Hm as <- |].
    destruct (frame inp w) as [w1 |] eqn:Hf; [| done]. simpl in Hm.
    destruct (frame_ready inp w w1 Hr Hs Hf) as [Hr1 Hs1].
    apply (IH w1 w'); eauto.
Qed.

Lemma program_invariant (P : World → Prop) g inps w :
  (∀ w0, init g = Some w0 → P w0) →
  (∀ inp w w', ready w → in_step w → P w → frame inp w = Some w' → P w') →
  program g inps = Some w → P w.
Proof.
  intros Hinit Hframe Hp.
  destruct (init_spec g) as (w0 & Hi & _ & Hr & _ & _ & _ & _ & Hts & Hnc & _).
  rewrite (program_run g inps w0 Hi) in Hp.
  apply (main_loop_invariant P Hframe inps w0 w); auto.
  unfold in_step. lia.
Qed.

(** A frame of the run moves every flake by the wind of its half: the
    override is off, as the counters are in step. *)
Lemma frame_moves inp w w' :
  ready w → in_step w → frame inp w = Some w' →
  length (snow_list w') = length (snow_list w) ∧
  ∀ j p, snow_list w !! j = Some p →
         ∃ q, snow_list w' !! j = Some q ∧
              lands (wind_of w j).1 (wind_of w j).2 p q.
Proof.
  intros Hr Hs Hf. destruct (frame_spec inp w Hr) as (w1 & Hf1 & Hk & Hmove).
  rewrite Hf in Hf1. injection Hf1 as <-.
  destruct (at_snow_rest inp w) as (Hsnow & _).
  destruct (at_snow_counters inp w) as (Hc1 & Hc2 & _).
  assert (Hcalm : wind_changes (at_snow inp w) = false).
  { apply in_step_calm. pose proof (timer_in_step (ticks inp) w Hs) as Ht.
    unfold in_step in *. by rewrite Hc1, Hc2. }
  split.
  - destruct Hk as [_ _ _ _ _ _ _ ->]. by rewrite Hsnow.
  - intros j p Hjp. destruct (Hmove j p Hjp) as (q & Hq & Hland).
    exists q. split; [done |]. unfold blow in Hland. by rewrite Hcalm in Hland.
Qed.

(** The frame that receives a quit request is run to its end like any
    other frame, and it is the last one.  When the run has reached the
    world [w] with the flag clear and the next frame's events hold a QUIT,
    the run ends in the world [frame] returns on [w]: the clock is read,
    the timer is updated, every flake is moved; the flag is set, and the
    inputs after that frame are never read. *)
Theorem quit_ends_the_run g before inp after w :
  QUIT ∈ events inp →
  program g before = Some w → done w = false →
  ∃ w', frame inp w = Some w' ∧
        program g (before ++ inp :: after) = Some w' ∧
        done w' = true ∧
        time_passed w' = ticks inp ∧
        time_since w' = time_since (timer (ticks inp) w) ∧
        num_changed w' = num_changed (timer (ticks inp) w) ∧
        ∀ j p, snow_list w !! j = Some p →
               ∃ q, snow_list w' !! j = Some q ∧
                    lands (wind_of w j).1 (wind_of w j).2 p q.
Proof.
  intros Hq Hp Hd.
  destruct (init_spec g) as (w0 & Hi & _ & Hr0 & _ & _ & _ & _ & Hts & Hnc & _).
  destruct (reachable_spec w) as (Hr & Hs & _); [by exists g, before |].
  rewrite (program_run g _ w0 Hi) in Hp.
  destruct (frame_spec inp w Hr) as (w' & Hf & Hk & _).
  destruct (frame_moves inp w w' Hr Hs Hf) as [_ Hmove].
  destruct (at_snow_counters inp w) as (Hc1 & Hc2 & Hc3).
  assert (Hd' : done w' = true).
  { rewrite (frame_done inp w w' Hr Hf), (bool_decide_eq_true_2 _ Hq).
    by destruct (done w). }
  exists w'. destruct Hk as [K0 K1 K2 _ _ _ _ _].
  split; [exact Hf |]. split.
  { rewrite (program_run g _ w0 Hi), main_loop_app, Hp.
    cbn [mbind option_bind main_loop]. rewrite Hd, Hf.
    cbn [mbind option_bind]. by apply main_loop_done. }
  split; [exact Hd' |]. split; [by rewrite K0 |].
  split; [by rewrite K1 |]. split; [by rewrite K2 |]. exact Hmove.
Qed.

Lemma quit_ends_the_run_witness :
  ∃ w', frame (mkInput [QUIT] 10040) still_start = Some w' ∧
        program (const 0) ([] ++ mkInput [QUIT] 10040 :: [mkInput [] 10080])
        = Some w' ∧
        done w' = true ∧
        time_passed w' = ticks (mkInput [QUIT] 10040) ∧
        time_since w'
        = time_since (timer (ticks (mkInput [QUIT] 10040)) still_start) ∧
        num_changed w'
        = num_changed (timer (ticks (mkInput [QUIT] 10040)) still_start) ∧
        ∀ j p, snow_list still_start !! j = Some p →
               ∃ q, snow_list w' !! j = Some q ∧
                    lands (wind_of still_start j).1 (wind_of still_start j).2 p q.
Proof.
  apply (quit_ends_the_run (const 0) [] (mkInput [QUIT] 10040)
           [mkInput [] 10080] still_start).
  - simpl. apply list_elem_of_here.
  - vm_compute. reflexivity.
  - vm_compute. reflexivity.
Defined.

(** The quit frame of that run did its work: the timer counted the
    interval and the flakes were moved. *)
Example quit_frame_is_run :
  (λ w, (done w, time_passed w, num_changed w, snow_list w !! 0%nat))
    <$> program (const 0) [mkInput [QUIT] 10040; mkInput [] 10080]
  = Some (true, 10040, 1, Some (1, 2)).
Proof. by vm_compute. Qed.

(** All the frames of a list of inputs, one after the other, with no test
    of the flag in between. *)
Fixpoint every_frame (inps : list Input) (w : World) : option World :=
  match inps with
  | [] => Some w
  | inp :: rest => frame inp w ≫= every_frame rest
  end.

(** Without a quit request no frame is skipped: the run is initialisation
    followed by the frame of every input, in order.  The flag is still
    clear at the end and [time_passed] is the last reading. *)
Theorem no_quit_runs_every_frame g inps :
  Forall (λ inp, QUIT ∉ events inp) inps →
  ∃ w, program g inps = Some w ∧
       init g ≫= every_frame inps = Some w ∧
       done w = false ∧
       time_passed w = last_tick 0 inps.
Proof.
  intros Hnq.
  destruct (init_spec g) as (w0 & Hi & _ & Hr & _ & _ & _ & Htp & Hts & Hnc & Hd).
  rewrite (program_run g inps w0 Hi), Hi, <- Htp.
  cbn [mbind option_bind].
  assert (Hs : in_step w0) by (unfold in_step; lia).
  clear Hi Hts Hnc Htp. revert w0 Hr Hs Hd.
  induction Hnq as [| inp inps Hq Hnq IH]; intros w Hr Hs Hd.
  - by exists w.
  - simpl. rewrite Hd.
    destruct (frame_spec inp w Hr) as (w1 & Hf & _).
    destruct (frame_ready inp w w1 Hr Hs Hf) as [Hr1 Hs1].
    rewrite Hf. simpl.
    rewrite <- (frame_time_passed inp w w1 Hr Hf).
    apply IH; [done | done |].
    rewrite (frame_done inp w w1 Hr Hf), Hd.
    by rewrite (bool_decide_eq_false_2 _ Hq).
Qed.

Lemma no_quit_runs_every_frame_witness :
  ∃ w, program (const 0) [mkInput [] 40; mkInput [OtherEvent] 80] = Some w ∧
       init (const 0) ≫= every_frame [mkInput [] 40; mkInput [OtherEvent] 80]
       = Some w ∧
       done w = false ∧
       time_passed w = last_tick 0 [mkInput [] 40; mkInput [OtherEvent] 80].
Proof.
  apply (no_quit_runs_every_frame (const 0)
           [mkInput [] 40; mkInput [OtherEvent] 80]).
  repeat constructor; simpl; intros H; by repeat (apply elem_of_cons in H as [H | H]; [discriminate |]);
    apply elem_of_nil in H.
Defined.

(** ** What holds of the flakes in every world of the run *)

(** The rectangle the flakes live in: the window, the 3-pixel margin on the
    right and at the bottom, and the 50-pixel strips the recycled flakes
    are put in, above and to the left. *)
Definition in_region (p : Z * Z) : Prop :=
  -50 ≤ p.1 ≤ width + 3 ∧ -50 ≤ p.2 ≤ height + 3.

Lemma lands_in_region dx dy p q :
  0 ≤ dx → 0 ≤ dy → in_region p → lands dx dy p q → in_region q.
Proof.
  unfold lands, in_region, above_top, left_of_left, width, height. simpl.
  intros Hdx Hdy Hp.
  destruct (Z.gtb_spec (p.2 + dy) (500 + 3)); [lia |].
  destruct (Z.gtb_spec (p.1 + dx) (700 + 3)); [lia |].
  intros ->. simpl. lia.
Qed.

(** In every world the program reaches, every flake is inside the region:
    a flake is never further right than [width + 3] or further down than
    [height + 3], and never further than 50 left of or above the window. *)
Theorem flakes_stay_in_region g inps w :
  program g inps = Some w → Forall in_region (snow_list w).
Proof.
  apply (program_invariant (λ w, Forall in_region (snow_list w))).
  - intros w0 Hi0.
    destruct (init_spec g) as (w0' & Hi & _ & _ & Hstart & _).
    rewrite Hi0 in Hi. injection Hi as <-.
    eapply Forall_impl; [exact Hstart |].
    unfold start_ok, in_region, width, height. intros p. lia.
  - intros inp w1 w2 Hr Hs HP Hf.
    destruct (frame_moves inp w1 w2 Hr Hs Hf) as [Hlen Hmove].
    apply Forall_lookup. intros j q Hq.
    destruct (lookup_lt_is_Some_2 (snow_list w1) j) as [p Hp].
    { rewrite <- Hlen. by eapply lookup_lt_Some. }
    destruct (Hmove j p Hp) as (q' & Hq' & Hland).
    rewrite Hq in Hq'. injection Hq' as <-.
    eapply lands_in_region; [| | | exact Hland].
    + unfold wind_of. by destruct (decide (j < snow_half w1)%nat).
    + unfold wind_of. by destruct (decide (j < snow_half w1)%nat).
    + by eapply Forall_lookup_1.
Qed.

Lemma flakes_stay_in_region_witness :
  Forall in_region
    (snow_list (default still_start (program (const 0) [mkInput [] 40]))).
Proof.
  apply (flakes_stay_in_region (const 0) [mkInput [] 40]).
  vm_compute. reflexivity.
Defined.

(** In every world the program reaches, every radius is 2, 3 or 4 and every
    colour is a gray (h, h, h) with h in [30, 255]: nothing after the
    initialisation loop writes to [size_list] or [color_list]. *)
Theorem sizes_and_colours_for_life g inps w :
  program g inps = Some w →
  Forall (λ r, r = 2 ∨ r = 3 ∨ r = 4) (size_list w) ∧
  Forall (λ c, ∃ h, c = (h, h, h) ∧ 30 ≤ h ≤ 255) (color_list w).
Proof.
  intros Hp.
  destruct (program_spec g inps) as (w0 & w_ & Hi & Hp' & _ & _ & E1 & E2 & _).
  rewrite Hp in Hp'. injection Hp' as <-.
  destruct (init_spec g) as (w0' & Hi' & _ & _ & _ & Hf2 & Hf3 & _).
  rewrite Hi in Hi'. injection Hi' as <-.
  rewrite E1, E2. split; [exact Hf2 | exact Hf3].
Qed.

Lemma sizes_and_colours_for_life_witness :
  Forall (λ r, r = 2 ∨ r = 3 ∨ r = 4)
    (size_list (default still_start (program (const 0) [mkInput [] 40]))) ∧
  Forall (λ c, ∃ h, c = (h, h, h) ∧ 30 ≤ h ≤ 255)
    (color_list (default still_start (program (const 0) [mkInput [] 40]))).
Proof.
  apply (sizes_and_colours_for_life (const 0) [mkInput [] 40]).
  vm_compute. reflexivity.
Defined.

(** ** The timer against the clock *)

(** Clock readings that start at [t], never go back, and are never more
    than one interval apart: a run whose frames come in time. *)
Fixpoint steady (t : Z) (inps : list Input) : Prop :=
  match inps with
  | [] => True
  | inp :: rest => t ≤ ticks inp ≤ t + 10000 ∧ steady (ticks inp) rest
  end.

Lemma main_loop_steady inps : ∀ w w',
  ready w → in_step w → steady (time_passed w) inps →
  0 ≤ time_passed w - time_since w < 10000 →
  main_loop inps w = Some w' →
  0 ≤ time_passed w' - time_since w' < 10000.
Proof.
  induction inps as [| inp inps IH]; intros w w' Hr Hs Hst Hgap Hm.
  - by injection Hm as <-.
  - destruct Hst as [Hnow Hst]. simpl in Hm.
    destruct (done w); [by injection Hm as <- |].
    destruct (frame_spec inp w Hr) as (w1 & Hf & Hk & _).
    rewrite Hf in Hm. simpl in Hm.
    destruct (frame_ready inp w w1 Hr Hs Hf) as [Hr1 Hs1].
    destruct (at_snow_counters inp w) as (Hc1 & _ & Hc3).
    destruct Hk as [K0 K1 _ _ _ _ _ _].
    apply (IH w1 w' Hr1 Hs1); [by rewrite K0, Hc3 | | done].
    rewrite K0, K1, Hc1, Hc3.
    destruct (timer_cases (ticks inp) w) as [(? & -> & _) | (? & -> & _)]; lia.
Qed.

(** When the frames come in time, the timer keeps up with the clock: in
    every world of the run [num_changed] is the number of whole intervals
    in [time_passed], and [time_since] is the start of the current one. *)
Theorem timer_keeps_up g inps w :
  steady 0 inps → program g inps = Some w →
  num_changed w = time_passed w `div` 10000 ∧
  time_since w = 10000 * (time_passed w `div` 10000) ∧
  0 ≤ time_passed w - time_since w < 10000.
Proof.
  intros Hst Hp.
  destruct (program_spec g inps) as (w0 & w_ & Hi & Hp' & _ & Hs & _).
  rewrite Hp in Hp'. injection Hp' as <-.
  destruct (init_spec g) as (w0' & Hi' & _ & Hr0 & _ & _ & _ & Htp & Hts & Hnc & _).
  rewrite Hi in Hi'. injection Hi' as <-.
  rewrite (program_run g inps w0 Hi) in Hp.
  assert (Hgap : 0 ≤ time_passed w - time_since w < 10000).
  { apply (main_loop_steady inps w0 w);
      [exact Hr0 | unfold in_step; lia | rewrite Htp; exact Hst | lia | exact Hp]. }
  unfold in_step in Hs.
  assert (Hq : num_changed w = time_passed w `div` 10000).
  { apply (Z.div_unique _ _ _ (time_passed w - time_since w)); lia. }
  rewrite <- Hq. auto.
Qed.

Lemma timer_keeps_up_witness :
  let w := default still_start
             (program (const 0) [mkInput [] 9000; mkInput [] 19000; mkInput [] 21000]) in
  num_changed w = time_passed w `div` 10000 ∧
  time_since w = 10000 * (time_passed w `div` 10000) ∧
  0 ≤ time_passed w - time_since w < 10000.
Proof.
  apply (timer_keeps_up (const 0)
           [mkInput [] 9000; mkInput [] 19000; mkInput [] 21000]).
  - simpl. lia.
  - vm_compute. reflexivity.
Defined.

(** However the clock runs, the timer counts at most one interval per
    frame: after a run of n frames [num_changed] is at most n and
    [time_since] at most 10000 * n, so a stall of k intervals takes k
    frames to be counted. *)
Theorem at_most_one_interval_per_frame g inps w :
  program g inps = Some w →
  0 ≤ num_changed w ≤ Z.of_nat (length inps) ∧
  time_since w ≤ 10000 * Z.of_nat (length inps).
Proof.
  intros Hp.
  destruct (program_spec g inps) as (w0 & w_ & Hi & Hp' & _ & Hs & _).
  rewrite Hp in Hp'. injection Hp' as <-.
  destruct (init_spec g) as (w0' & Hi' & _ & Hr0 & _ & _ & _ & _ & Hts & Hnc & _).
  rewrite Hi in Hi'. injection Hi' as <-.
  rewrite (program_run g inps w0 Hi) in Hp.
  assert (Hs0 : in_step w0) by (unfold in_step; lia).
  assert (H : num_changed w0 ≤ num_changed w
              ≤ num_changed w0 + Z.of_nat (length inps)).
  { clear Hi Hts Hnc Hs. revert w0 Hr0 Hs0 Hp.
    induction inps as [| inp inps IH]; intros w0 Hr0 Hs0 Hm.
    - injection Hm as <-. simpl. lia.
    - simpl in Hm. destruct (done w0).
      { injection Hm as <-. rewrite length_cons. lia. }
      destruct (frame_spec inp w0 Hr0) as (w1 & Hf & Hk & _).
      rewrite Hf in Hm. simpl in Hm.
      destruct (frame_ready inp w0 w1 Hr0 Hs0 Hf) as [Hr1 Hs1].
      specialize (IH w1 Hr1 Hs1 Hm).
      destruct (at_snow_counters inp w0) as (_ & Hc2 & _).
      destruct Hk as [_ _ K2 _ _ _ _ _]. rewrite K2, Hc2 in IH.
      rewrite length_cons.
      destruct (timer_cases (ticks inp) w0) as [(_ & _ & T) | (_ & _ & T)];
        rewrite T in IH; lia. }
  unfold in_step in Hs. lia.
Qed.

Lemma at_most_one_interval_per_frame_witness :
  let w := default still_start
             (program (const 0) [mkInput [] 50000; mkInput [] 50040]) in
  0 ≤ num_changed w ≤ Z.of_nat (length [mkInput [] 50000; mkInput [] 50040]) ∧
  time_since w
  ≤ 10000 * Z.of_nat (length [mkInput [] 50000; mkInput [] 50040]).
Proof.
  apply (at_most_one_interval_per_frame (const 0)
           [mkInput [] 50000; mkInput [] 50040]).
  vm_compute. reflexivity.
Defined.

(** ** letItSnow on any range *)

Lemma snow_loop_app l1 l2 y_wind s :
  snow_loop (l1 ++ l2) y_wind s
  = snow_loop l1 y_wind s ≫= snow_loop l2 y_wind.
Proof.
  revert s. induction l1 as [| i l1 IH]; intros s; [done |].
  rewrite <- app_comm_cons, !snow_loop_cons.
  destruct (snow_body i y_wind s) as [s' |]; simpl; [apply IH | done].
Qed.

Lemma range_split a k b :
  (a ≤ k < b)%nat → range a b = range a k ++ k :: range (S k) b.
Proof.
  intros Hk. unfold range.
  replace (b - a)%nat with ((k - a) + S (b - S k))%nat by lia.
  rewrite seq_app. replace (a + (k - a))%nat with k by lia. done.
Qed.

(** An index outside one of the three lists makes the iteration raise, at
    its first statement. *)
Lemma snow_body_raises i y_wind x_wind w :
  (length (snow_list w) ≤ i ∨ length (size_list w) ≤ i ∨
   length (color_list w) ≤ i)%nat →
  snow_body i y_wind (x_wind, w) = None.
Proof.
  intros H. unfold snow_body, draw_circle.
  destruct (color_list w !! i) as [col |] eqn:Hc; [| done].
  destruct (snow_list w !! i) as [p |] eqn:Hp; [| done].
  destruct (size_list w !! i) as [rad |] eqn:Hr; [| done].
  apply lookup_lt_Some in Hc, Hp, Hr. lia.
Qed.

(** The entries of the three lists are like those of a run: a radius of 2,
    3 or 4, a gray with intensity in [30, 255], a position inside the
    region.  These are arguments [pygame.draw.circle] accepts, so that the
    only exception an iteration can raise is the [IndexError] of a list. *)
Definition drawable (w : World) : Prop :=
  Forall (λ r, r = 2 ∨ r = 3 ∨ r = 4) (size_list w) ∧
  Forall (λ c, ∃ h, c = (h, h, h) ∧ 30 ≤ h ≤ 255) (color_list w) ∧
  Forall in_region (snow_list w).

(** For bounds that are not negative and lists of drawable entries (of any
    lengths, parallel or not): [letItSnow] returns exactly when its range
    is empty (or reversed) or lies inside the three lists; on any other
    range it raises [IndexError].  On an empty range it leaves the world
    as it is. *)
Theorem letItSnow_returns_iff firstSnow lastSnow x_wind y_wind w :
  drawable w →
  (is_Some (letItSnow firstSnow lastSnow x_wind y_wind w) ↔
   (lastSnow ≤ firstSnow)%nat ∨
   ((lastSnow ≤ length (snow_list w))%nat ∧
    (lastSnow ≤ length (size_list w))%nat ∧
    (lastSnow ≤ length (color_list w))%nat)) ∧
  ((lastSnow ≤ firstSnow)%nat →
   letItSnow firstSnow lastSnow x_wind y_wind w = Some w).
Proof.
  intros _.
  assert (Hempty : (lastSnow ≤ firstSnow)%nat →
                   letItSnow firstSnow lastSnow x_wind y_wind w = Some w).
  { intros Hle. unfold letItSnow, range.
    by replace (lastSnow - firstSnow)%nat with 0%nat by lia. }
  split; [| exact Hempty]. split.
  - intros Hsome.
    destruct (decide (lastSnow ≤ firstSnow)%nat) as [| Hlt]; [by left | right].
    destruct (decide (lastSnow ≤ length (snow_list w) ∧
                      lastSnow ≤ length (size_list w) ∧
                      lastSnow ≤ length (color_list w))%nat) as [| Hout];
      [done | exfalso].
    set (n := (length (snow_list w) `min` (length (size_list w)
                 `min` length (color_list w)))%nat).
    set (k := (firstSnow `max` n)%nat).
    assert (Hk : (firstSnow ≤ k < lastSnow)%nat) by lia.
    destruct (snow_loop_spec (range firstSnow k) y_wind (NoDup_seq _ _) x_wind w)
      as (w1 & Hloop & Hk1 & _).
    { intros i Hi%elem_of_range. unfold indexed. lia. }
    destruct Hk1 as [_ _ _ _ K1 K2 _ K3].
    destruct Hsome as [w' Hcall]. unfold letItSnow in Hcall.
    rewrite (range_split firstSnow k lastSnow Hk), snow_loop_app, Hloop in Hcall.
    cbn [mbind option_bind] in Hcall.
    rewrite snow_loop_cons, snow_body_raises in Hcall; [done |].
    rewrite K1, K2, K3. lia.
  - intros [Hle | (H1 & H2 & H3)].
    + rewrite (Hempty Hle). by eexists.
    + destruct (letItSnow_spec firstSnow lastSnow x_wind y_wind w H1 H2 H3)
        as (w' & -> & _). by eexists.
Qed.

Lemma letItSnow_returns_iff_witness :
  (is_Some (letItSnow 0 2 1 2 (lone 0 0 (5, 5)%Z)) ↔
   (2 ≤ 0)%nat ∨
   ((2 ≤ length (snow_list (lone 0 0 (5, 5)%Z)))%nat ∧
    (2 ≤ length (size_list (lone 0 0 (5, 5)%Z)))%nat ∧
    (2 ≤ length (color_list (lone 0 0 (5, 5)%Z)))%nat)) ∧
  ((2 ≤ 0)%nat → letItSnow 0 2 1 2 (lone 0 0 (5, 5)%Z) = Some (lone 0 0 (5, 5)%Z)).
Proof.
  apply (letItSnow_returns_iff 0 2 1 2 (lone 0 0 (5, 5)%Z)).
  unfold drawable. simpl. split; [| split].
  - constructor; [lia | constructor].
  - constructor; [| constructor]. exists 30. split; [reflexivity | lia].
  - constructor; [| constructor]. unfold in_region, width, height. simpl. lia.
Defined.

(** The second call of the main loop on a world with one colour missing
    raises; the same call on an empty range does nothing. *)
Example letItSnow_edges :
  letItSnow 0 1 1 2 (set_color_list [] (lone 0 0 (5, 5))) = None ∧
  letItSnow 1 2 4 4 (lone 0 0 (5, 5)) = None ∧
  letItSnow 1 1 4 4 (lone 0 0 (5, 5)) = Some (lone 0 0 (5, 5)).
Proof. by vm_compute. Qed.

(** ** What a frame draws, and what it takes from the random source *)

(** The flake drifted by [(dx, dy)] is off the bottom or off the right. *)
Definition leaves (dx dy : Z) (p : Z * Z) : bool :=
  (p.2 + dy >? height + 3) || (p.1 + dx >? width + 3).

(** The number of draws the iteration for flake [j] makes. *)
Definition draws_at (w : World) (dx dy : Z) (j : nat) : nat :=
  match snow_list w !! j with
  | Some p => if leaves dx dy p then 2 else 0
  | None => 0
  end.

(** The circle that stands for flake [i] in the world [w]. *)
Definition sprite (w : World) (i : nat) : option Circle :=
  col ← color_list w !! i;
  pos ← snow_list w !! i;
  rad ← size_list w !! i;
  Some (mkCircle col pos rad).

Lemma recycle_bottom_rand i w w' p :
  snow_list w !! i = Some p → recycle_bottom i w = Some w' →
  rand w' = skip (if p.2 >? height + 3 then 2 else 0) (rand w).
Proof.
  intros Hp. unfold recycle_bottom. rewrite Hp. simpl.
  destruct (p.2 >? height + 3).
  - unfold update_y. simpl. rewrite Hp. simpl.
    unfold update_x. simpl.
    rewrite list_lookup_insert_eq by by eapply lookup_lt_Some.
    simpl. by intros [= <-].
  - intros [= <-]. by rewrite skip_0.
Qed.

Lemma recycle_right_rand i w w' p :
  snow_list w !! i = Some p → recycle_right i w = Some w' →
  rand w' = skip (if p.1 >? width + 3 then 2 else 0) (rand w).
Proof.
  intros Hp. unfold recycle_right. rewrite Hp. simpl.
  destruct (p.1 >? width + 3).
  - unfold update_y. simpl. rewrite Hp. simpl.
    unfold update_x. simpl.
    rewrite list_lookup_insert_eq by by eapply lookup_lt_Some.
    simpl. by intros [= <-].
  - intros [= <-]. by rewrite skip_0.
Qed.

(** One iteration: the circle is drawn at the position the flake has when
    the iteration starts, and two draws are made exactly when the drifted
    flake leaves. *)
Lemma snow_body_effects i y_wind x_wind w x' w' p :
  snow_list w !! i = Some p → indexed i w →
  snow_body i y_wind (x_wind, w) = Some (x', w') →
  rand w' = skip (if leaves (blow x_wind w) y_wind p then 2 else 0) (rand w) ∧
  ∃ c, sprite w i = Some c ∧
       screen w' = mkScreen (background (screen w)) (circles (screen w) ++ [c]).
Proof.
  intros Hp (Hi & Hs & Hc) Hbody.
  destruct (snow_body_trace i y_wind x_wind w p Hp Hs Hc)
    as (wd & wb & wr & d & m & q & gb & gr & s & H1 & H2 & H3 & H4 & Ewd & Ewb & Ewr & Hd & Hm & Hq).
  rewrite Hbody in H4. injection H4 as _ <-.
  destruct (lookup_lt_is_Some_2 _ _ Hs) as [rad Hrad].
  destruct (lookup_lt_is_Some_2 _ _ Hc) as [col Hcol].
  rewrite (draw_circle_Some i w p Hp col rad Hcol Hrad) in H1.
  cbn [mbind option_bind] in H1.
  rewrite (drifting_Some i (set_screen _ w) p Hp) in H1. injection H1 as H1.
  assert (Hwd : snow_list wd !! i = Some d) by (rewrite Ewd; by apply moved_lookup).
  assert (Hwb : snow_list wb !! i = Some m) by (rewrite Ewb; by apply moved_lookup).
  pose proof (recycle_bottom_rand i wd wb d Hwd H2) as R1.
  pose proof (recycle_right_rand i wb w' m Hwb H3) as R2.
  split.
  - rewrite R2, R1, skip_skip, <- H1. simpl. f_equal.
    unfold leaves. rewrite Hd in *. simpl in *.
    destruct (Z.gtb_spec (p.2 + y_wind) (height + 3)); simpl.
    + destruct Hm as [_ Hm]. unfold width in *.
      by destruct (Z.gtb_spec (m.1) (700 + 3)); [lia |].
    + destruct Hm as [-> _]. simpl.
      by destruct (p.1 + blow x_wind w >? width + 3).
  - exists (mkCircle col p rad). split.
    + unfold sprite. by rewrite Hcol, Hp, Hrad.
    + rewrite Ewr. simpl. rewrite Ewd in H1.
      apply (f_equal screen) in H1. simpl in H1. by rewrite <- H1.
Qed.

Lemma sprite_moved_ne i j q g s w :
  i ≠ j → sprite (moved i q g s w) j = sprite w j.
Proof. intros H. unfold sprite. by rewrite moved_lookup_ne. Qed.

Lemma Forall2_Some_ext {A B} (f f' : A → option B) l k :
  Forall2 (λ x y, f x = Some y) l k → (∀ x, x ∈ l → f x = f' x) →
  Forall2 (λ x y, f' x = Some y) l k.
Proof.
  induction 1 as [| x y l k Hxy _ IH]; intros Hext; constructor.
  - rewrite <- Hext; [done | left].
  - apply IH. intros z Hz. apply Hext. by right.
Qed.

(** The loop: the circles are appended in the order of the indices, each at
    the position its flake had before the loop, and the generator moves on
    by the draws of the flakes that leave. *)
Lemma snow_loop_effects idxs y_wind :
  NoDup idxs → ∀ x_wind w x' w',
  (∀ i, i ∈ idxs → indexed i w) →
  snow_loop idxs y_wind (x_wind, w) = Some (x', w') →
  rand w'
  = skip (sum_list (draws_at w (blow x_wind w) y_wind <$> idxs)) (rand w) ∧
  ∃ cs, Forall2 (λ j c, sprite w j = Some c) idxs cs ∧
        screen w'
        = mkScreen (background (screen w)) (circles (screen w) ++ cs).
Proof.
  induction 1 as [| i rest Hi Hnd IH]; intros x_wind w x' w' Hidx Hloop.
  - injection Hloop as _ <-. split; [by rewrite skip_0 |].
    exists []. split; [constructor |]. rewrite app_nil_r. by destruct (screen w).
  - assert (Hiw : indexed i w) by (apply Hidx; left).
    destruct (lookup_lt_is_Some_2 _ _ (proj1 Hiw)) as [p Hp].
    destruct (snow_body_Some i y_wind x_wind w p Hp Hiw) as (q & g & s & Hbody & _).
    rewrite snow_loop_cons, Hbody in Hloop. cbn [mbind option_bind] in Hloop.
    pose proof (moved_keeps i q g s w) as Hk.
    destruct (snow_body_effects i y_wind x_wind w _ _ p Hp Hiw Hbody)
      as (Hrand & c & Hc & Hscreen).
    destruct (IH (blow x_wind w) (moved i q g s w) x' w') as (Hrand' & cs & Hcs & Hscreen').
    { intros j Hj. eapply keeps_indexed; [done |]. apply Hidx. by right. }
    { done. }
    rewrite (keeps_blow _ _ _ Hk), blow_idem in Hrand'.
    split.
    + rewrite Hrand', Hrand, skip_skip. f_equal.
      rewrite fmap_cons.
      assert (Hrest : draws_at (moved i q g s w) (blow x_wind w) y_wind <$> rest
                      = draws_at w (blow x_wind w) y_wind <$> rest).
      { apply Forall_fmap_ext_1, Forall_forall. intros j Hj.
        unfold draws_at. rewrite moved_lookup_ne; [done |]. by intros ->. }
      rewrite Hrest.
      change (sum_list (?a :: ?l)) with (a + sum_list l)%nat.
      unfold draws_at at 2. rewrite Hp. lia.
    + exists (c :: cs). split.
      * constructor; [done |].
        apply (Forall2_Some_ext _ _ _ _ Hcs). intros j Hj.
        apply sprite_moved_ne. by intros ->.
      * rewrite Hscreen', Hscreen. simpl. by rewrite <- app_assoc.
Qed.

(** A frame is the two loops, one after the other, on the world the timer
    leaves. *)
Lemma frame_two_loops inp w w' :
  ready w → frame inp w = Some w' →
  let wt := at_snow inp w in
  let h := snow_half wt in
  let n := length (snow_list wt) in
  ∃ x1 w1 x2,
    snow_loop (range 0 h) 2 (1, wt) = Some (x1, w1) ∧
    snow_loop (range h n) 4 (4, w1) = Some (x2, w') ∧
    keeps wt w1 ∧ (h ≤ n)%nat ∧
    (∀ j, (h ≤ j)%nat → snow_list w1 !! j = snow_list wt !! j).
Proof.
  intros Hr Hf wt h n.
  pose proof (at_snow_ready inp w Hr) as (Hs & Hc & Hh). fold wt in Hs, Hc, Hh.
  assert (Hle : (h ≤ n)%nat).
  { unfold h, n. rewrite Hh. apply Nat.Div0.div_le_upper_bound. lia. }
  destruct (snow_loop_spec (range 0 h) 2 (NoDup_seq _ _) 1 wt)
    as (w1 & Hl1 & Hk1 & Hout1 & _).
  { intros i Hi%elem_of_range. unfold indexed. fold n. lia. }
  pose proof Hk1 as [_ _ _ _ Hs1 Hc1 Hh1 Hn1].
  destruct (snow_loop_spec (range h n) 4 (NoDup_seq _ _) 4 w1)
    as (w2 & Hl2 & Hk2 & _).
  { intros i Hi%elem_of_range. unfold indexed. rewrite Hs1, Hc1, Hn1, Hs, Hc.
    fold n. lia. }
  unfold frame in Hf. fold (at_snow inp w) in Hf. fold wt in Hf.
  cbv zeta in Hf. unfold letItSnow in Hf. fold h in Hf. rewrite Hl1 in Hf.
  cbn [fmap option_fmap option_map mbind option_bind snd] in Hf.
  rewrite Hh1, Hn1 in Hf. fold h n in Hf. rewrite Hl2 in Hf.
  cbn [fmap option_fmap option_map snd] in Hf. injection Hf as <-.
  eexists _, w1, _. split_and!; [exact Hl1 | exact Hl2 | exact Hk1 | exact Hle |].
  intros j Hj. apply Hout1. rewrite elem_of_range. lia.
Qed.

Lemma at_snow_screen inp w : screen (at_snow inp w) = mkScreen navy [].
Proof.
  unfold at_snow.
  by destruct (timer_rest (ticks inp) (fill navy (poll (events inp) w)))
    as (_ & _ & _ & _ & _ & _ & ->).
Qed.

Lemma range_app h n : (h ≤ n)%nat → range 0 h ++ range h n = seq 0 n.
Proof.
  intros Hle. unfold range. rewrite Nat.sub_0_r.
  replace n with (h + (n - h))%nat at 2 by lia. by rewrite seq_app.
Qed.

Lemma sum_list_fmap {A} (f : A → nat) l :
  sum_list (f <$> l) = sum_list_with f l.
Proof. induction l as [| x l IH]; csimpl; [done | by rewrite IH]. Qed.

(** What is on the surface when a frame of the run ends: the navy
    background and one circle per flake, in the order of the lists, with
    the flake's colour and radius, at the position the flake had when the
    frame began.  Each flake is drawn before it is moved, so the picture
    is one step behind the positions. *)
Theorem frame_draws_where_flakes_were g inps inp w w' :
  program g inps = Some w → frame inp w = Some w' →
  background (screen w') = navy ∧
  ∀ j, circles (screen w') !! j = sprite w j.
Proof.
  intros Hp Hf.
  destruct (reachable_spec w) as (Hr & _); [by exists g, inps |].
  destruct (frame_two_loops inp w w' Hr Hf)
    as (x1 & w1 & x2 & Hl1 & Hl2 & Hk1 & Hle & Hout1).
  pose proof (at_snow_ready inp w Hr) as (Hs & Hc & _).
  destruct (at_snow_rest inp w) as (A1 & A2 & A3 & _).
  pose proof (at_snow_screen inp w) as Hscr.
  set (wt := at_snow inp w) in *.
  set (h := snow_half wt) in *. set (n := length (snow_list wt)) in *.
  pose proof Hk1 as [_ _ _ _ Hs1 Hc1 _ Hn1].
  destruct (snow_loop_effects (range 0 h) 2 (NoDup_seq _ _) 1 wt x1 w1)
    as (_ & cs1 & F1 & S1); [| exact Hl1 |].
  { intros i Hi%elem_of_range. unfold indexed. fold n. lia. }
  destruct (snow_loop_effects (range h n) 4 (NoDup_seq _ _) 4 w1 x2 w')
    as (_ & cs2 & F2 & S2); [| exact Hl2 |].
  { intros i Hi%elem_of_range. unfold indexed. rewrite Hs1, Hc1, Hn1, Hs, Hc.
    fold n. lia. }
  apply (Forall2_Some_ext _ (sprite wt)) in F2.
  2: { intros j Hj%elem_of_range. unfold sprite.
       rewrite Hs1, Hc1, Hout1; [done | lia]. }
  pose proof (Forall2_app F1 F2) as F.
  rewrite (range_app h n Hle) in F.
  assert (Hsprite : ∀ j, sprite wt j = sprite w j).
  { intros j. unfold sprite. by rewrite A1, A2, A3. }
  rewrite S2, S1, Hscr. simpl. split; [done |].
  intros j. rewrite <- Hsprite.
  destruct (decide (j < n)%nat) as [Hlt | Hge].
  - destruct (Forall2_lookup_l _ _ _ j j F) as (c & Hc' & Hsp).
    { by apply lookup_seq_lt. }
    by rewrite Hc', Hsp.
  - rewrite lookup_ge_None_2.
    2: { rewrite <- (Forall2_length _ _ _ F), length_seq. lia. }
    unfold sprite. rewrite (lookup_ge_None_2 (color_list wt)); [done |].
    rewrite Hc. fold n. lia.
Qed.

Lemma frame_draws_where_flakes_were_witness :
  let w' := default still_start (frame (mkInput [] 40) still_start) in
  background (screen w') = navy ∧
  ∀ j, circles (screen w') !! j = sprite still_start j.
Proof.
  apply (frame_draws_where_flakes_were (const 0) [] (mkInput [] 40) still_start);
    vm_compute; reflexivity.
Defined.

(** What a frame of the run takes from the random source: two draws for
    each flake whose drifted position is off the bottom or off the right,
    and nothing else.  A frame in which no flake leaves does not touch the
    generator. *)
Theorem frame_random_draws g inps inp w w' :
  program g inps = Some w → frame inp w = Some w' →
  rand w'
  = skip (sum_list_with
            (λ j, draws_at w (wind_of w j).1 (wind_of w j).2 j)
            (seq 0 (length (snow_list w))))
         (rand w).
Proof.
  intros Hp Hf.
  destruct (reachable_spec w) as (Hr & Hstep & _); [by exists g, inps |].
  destruct (frame_two_loops inp w w' Hr Hf)
    as (x1 & w1 & x2 & Hl1 & Hl2 & Hk1 & Hle & Hout1).
  pose proof (at_snow_ready inp w Hr) as (Hs & Hc & _).
  destruct (at_snow_rest inp w) as (A1 & _ & _ & A4 & A5).
  destruct (at_snow_counters inp w) as (C1 & C2 & _).
  assert (Hcalm : wind_changes (at_snow inp w) = false).
  { apply in_step_calm. pose proof (timer_in_step (ticks inp) w Hstep) as Ht.
    unfold in_step in *. by rewrite C1, C2. }
  set (wt := at_snow inp w) in *.
  set (h := snow_half wt) in *. set (n := length (snow_list wt)) in *.
  assert (Hblow : ∀ x, blow x wt = x) by (intros x; unfold blow; by rewrite Hcalm).
  pose proof Hk1 as [_ _ _ _ Hs1 Hc1 _ Hn1].
  destruct (snow_loop_effects (range 0 h) 2 (NoDup_seq _ _) 1 wt x1 w1)
    as (R1 & _); [| exact Hl1 |].
  { intros i Hi%elem_of_range. unfold indexed. fold n. lia. }
  destruct (snow_loop_effects (range h n) 4 (NoDup_seq _ _) 4 w1 x2 w')
    as (R2 & _); [| exact Hl2 |].
  { intros i Hi%elem_of_range. unfold indexed. rewrite Hs1, Hc1, Hn1, Hs, Hc.
    fold n. lia. }
  rewrite (keeps_blow _ _ _ Hk1), Hblow in R2. rewrite Hblow in R1.
  set (F := λ j, draws_at w (wind_of w j).1 (wind_of w j).2 j).
  assert (E1 : draws_at wt 1 2 <$> range 0 h = F <$> range 0 h).
  { apply Forall_fmap_ext_1, Forall_forall. intros j Hj%elem_of_range.
    unfold F, wind_of, draws_at. rewrite <- A4, A1. fold wt h.
    destruct (decide (j < h)%nat); [done | lia]. }
  assert (E2 : draws_at w1 4 4 <$> range h n = F <$> range h n).
  { apply Forall_fmap_ext_1, Forall_forall. intros j Hj%elem_of_range.
    unfold F, wind_of, draws_at. rewrite <- A4, Hout1, A1 by lia. fold wt h.
    destruct (decide (j < h)%nat); [lia | done]. }
  rewrite R2, R1, skip_skip, E1, E2, <- A5, <- A1. fold wt n. f_equal.
  rewrite <- (range_app h n Hle), sum_list_with_app, !sum_list_fmap. lia.
Qed.

Lemma frame_random_draws_witness :
  let w' := default still_start (frame (mkInput [] 40) still_start) in
  rand w'
  = skip (sum_list_with
            (λ j, draws_at still_start (wind_of still_start j).1
                    (wind_of still_start j).2 j)
            (seq 0 (length (snow_list still_start))))
         (rand still_start).
Proof.
  apply (frame_random_draws (const 0) [] (mkInput [] 40) still_start);
    vm_compute; reflexivity.
Defined.

(** A flake on the bottom margin and one well inside: the frame makes the
    two draws of the first and none for the second. *)
Example draws_of_two_flakes :
  rand <$> letItSnow 0 1 1 2 (lone 0 0 (10, 502)) = Some (skip 2 (const 0)) ∧
  rand <$> letItSnow 0 1 1 2 (lone 0 0 (10, 100)) = Some (const 0).
Proof. by vm_compute. Qed.
